(** * Tic-Tac-Toe move search (Chatbot.py): board model and minimax with
      alpha-beta pruning, embedded shallowly and verified.

    The Python program keeps one board object, a list of nine cells, and
    the search mutates it in place ([board[mv] = player], recursive call,
    [board[mv] = None]).  The embedding threads that board through a small
    state-and-exception monad, so that "the board is restored" is a theorem
    about the code and not a modelling choice. *)

From Stdlib Require Import ZArith Lia Sorted DecimalString.
From stdpp Require Import base list numbers option strings.
From Stdlib Require Import Ascii.

Open Scope Z_scope.
Open Scope nat_scope.

(** ** Data model *)

(** The two marks, ['X'] and ['O']. *)
Inductive mark : Type := X | O.

#[global] Instance mark_eq_dec : EqDecision mark.
Proof. solve_decision. Defined.

(** [Board = List[Optional[str]]]: a cell is [None] or a mark. *)
Abbreviation cell := (option mark).
Abbreviation Board := (list (option mark)).

(** Scores travel as Python numbers: [-math.inf], [math.inf] or an int. *)
Inductive ext : Type := NegInf | Fin (z : Z) | PosInf.

(** Python exceptions the modelled code can raise. *)
Inductive exn : Type := IndexError | OverflowError.

(** Result of running a piece of the program: a value, a raised exception,
    or (for the recursion, which is driven by a depth budget) the budget
    running out. *)
Inductive outcome (A : Type) : Type :=
  | Ok (a : A)
  | Raise (e : exn)
  | OutOfFuel.
Arguments Ok {A} a.
Arguments Raise {A} e.
Arguments OutOfFuel {A}.

Definition obind {A B} (o : outcome A) (f : A -> outcome B) : outcome B :=
  match o with
  | Ok a => f a
  | Raise e => Raise e
  | OutOfFuel => OutOfFuel
  end.

(** Computations over the single shared board. *)
Definition M (A : Type) : Type := Board -> Board * outcome A.

Definition ret {A} (a : A) : M A := fun board => (board, Ok a).

Definition bind {A B} (m : M A) (f : A -> M B) : M B :=
  fun board =>
    match m board with
    | (board', Ok a) => f a board'
    | (board', Raise e) => (board', Raise e)
    | (board', OutOfFuel) => (board', OutOfFuel)
    end.

Definition out_of_fuel {A} : M A := fun board => (board, OutOfFuel).

(** A call that only reads the board: [f(board)]. *)
Definition call {A} (f : Board -> outcome A) : M A :=
  fun board => (board, f board).

Declare Scope board_scope.
Delimit Scope board_scope with M.
Notation "x <- m ;; k" := (bind m (fun x => k))
  (at level 100, m at next level, right associativity) : board_scope.
Notation "m ;; k" := (bind m (fun _ => k))
  (at level 100, right associativity) : board_scope.

(** ** Order on Python numbers *)

(** [a < b]. *)
Definition ext_ltb (a b : ext) : bool :=
  match a, b with
  | NegInf, NegInf => false
  | NegInf, _ => true
  | Fin x, Fin y => (x <? y)%Z
  | Fin _, PosInf => true
  | Fin _, NegInf => false
  | PosInf, _ => false
  end.

(** [a <= b]. *)
Definition ext_leb (a b : ext) : bool := negb (ext_ltb b a).

(** [max(a, b)]: Python returns [b] only when [b > a]. *)
Definition ext_max (a b : ext) : ext := if ext_ltb a b then b else a.

(** [min(a, b)]: Python returns [b] only when [b < a]. *)
Definition ext_min (a b : ext) : ext := if ext_ltb b a then b else a.

(** [int(x)]: the identity on ints, [OverflowError] on an infinity. *)
Definition int_of (x : ext) : outcome Z :=
  match x with
  | Fin z => Ok z
  | NegInf | PosInf => Raise OverflowError
  end.

(** ** Board model *)

(** [WIN_LINES]: rows, columns, diagonals. *)
Definition WIN_LINES : list (nat * nat * nat) :=
  [ (0, 1, 2); (3, 4, 5); (6, 7, 8);
    (0, 3, 6); (1, 4, 7); (2, 5, 8);
    (0, 4, 8); (2, 4, 6) ].

(** [new_board()]: [[None] * 9]. *)
Definition new_board : Board := replicate 9 None.

(** [board[i]] as an expression. *)
Definition getitem (board : Board) (i : nat) : outcome cell :=
  match board !! i with
  | Some v => Ok v
  | None => Raise IndexError
  end.

(** [board[i] = v] as a statement. *)
Definition setitem (i : nat) (v : cell) : M unit :=
  fun board =>
    if decide (i < length board) then (<[i := v]> board, Ok tt)
    else (board, Raise IndexError).

(** The loop of [check_winner] over the remaining lines.  The test
    [board[a] and board[a] == board[b] == board[c]] short-circuits: a falsy
    [board[a]] skips the comparisons, and [board[c]] is read only when
    [board[a] == board[b]]. *)
Fixpoint check_lines (lines : list (nat * nat * nat)) (board : Board)
  : outcome (option mark) :=
  match lines with
  | [] => Ok None
  | (a, b, c) :: rest =>
      obind (getitem board a) (fun va =>
        match va with
        | None => check_lines rest board
        | Some _ =>
            obind (getitem board b) (fun vb =>
              if decide (va = vb) then
                obind (getitem board c) (fun vc =>
                  if decide (vb = vc) then Ok va
                  else check_lines rest board)
              else check_lines rest board)
        end)
  end.

(** [check_winner(board)]. *)
Definition check_winner (board : Board) : outcome (option mark) :=
  check_lines WIN_LINES board.

(** [is_board_full(board)]: [all(cell is not None for cell in board)]. *)
Definition is_board_full (board : Board) : bool :=
  forallb (fun c => match c with Some _ => true | None => false end) board.

(** [game_over(board)]. *)
Definition game_over (board : Board) : outcome bool :=
  obind (check_winner board) (fun w =>
    Ok (match w with Some _ => true | None => is_board_full board end)).

(** [[i for i, v in enumerate(board) if v is None]], with the running
    index of [enumerate] as an argument. *)
Fixpoint available_from (i : nat) (board : Board) : list nat :=
  match board with
  | [] => []
  | None :: rest => i :: available_from (S i) rest
  | Some _ :: rest => available_from (S i) rest
  end.

(** [available_moves(board)]. *)
Definition available_moves (board : Board) : list nat :=
  available_from 0 board.

(** [opponent(player)]. *)
Definition opponent (player : mark) : mark :=
  match player with
  | X => O
  | O => X
  end.

(** ** Search engine *)

Section Loops.
(** The recursive call [minimax(board, opponent(player), ..., alpha, beta)]
    as the loops see it. *)
Variable recurse : ext -> ext -> M (Z * option nat).
Variable player : mark.

(** The [for mv in available_moves(board)] loop of the maximizing branch,
    from the state [(alpha, max_eval, best_move)] over the moves still to
    visit.  [break] ends the loop after the placement has been undone. *)
Fixpoint max_loop (mvs : list nat) (alpha beta max_eval : ext)
    (best_move : option nat) : M (ext * option nat) :=
  match mvs with
  | [] => ret (max_eval, best_move)
  | mv :: rest =>
      (setitem mv (Some player) ;;
       r <- recurse alpha beta ;;
       let eval_score := r.1 in
       setitem mv None ;;
       let '(max_eval, best_move) :=
         if ext_ltb max_eval (Fin eval_score)
         then (Fin eval_score, Some mv)
         else (max_eval, best_move) in
       let alpha := ext_max alpha (Fin eval_score) in
       if ext_leb beta alpha then ret (max_eval, best_move)
       else max_loop rest alpha beta max_eval best_move)%M
  end.

(** The loop of the minimizing branch, from [(beta, min_eval, best_move)]. *)
Fixpoint min_loop (mvs : list nat) (alpha beta min_eval : ext)
    (best_move : option nat) : M (ext * option nat) :=
  match mvs with
  | [] => ret (min_eval, best_move)
  | mv :: rest =>
      (setitem mv (Some player) ;;
       r <- recurse alpha beta ;;
       let eval_score := r.1 in
       setitem mv None ;;
       let '(min_eval, best_move) :=
         if ext_ltb (Fin eval_score) min_eval
         then (Fin eval_score, Some mv)
         else (min_eval, best_move) in
       let beta := ext_min beta (Fin eval_score) in
       if ext_leb beta alpha then ret (min_eval, best_move)
       else min_loop rest alpha beta min_eval best_move)%M
  end.
End Loops.

(** [minimax(board, player, maximizing, alpha, beta)].  [fuel] bounds the
    depth of nested recursive calls below this one; the terminal check needs
    none. *)
Fixpoint minimax (fuel : nat) (player : mark) (maximizing : bool)
    (alpha beta : ext) : M (Z * option nat) :=
  (winner <- call check_winner ;;
   match winner with
   | Some X => ret (1%Z, None)
   | Some O => ret ((-1)%Z, None)
   | None =>
       full <- call (fun board => Ok (is_board_full board)) ;;
       if full : bool then ret (0%Z, None)
       else
         let recurse :=
           match fuel with
           | 0 => fun _ _ _ _ => out_of_fuel
           | S fuel' => minimax fuel'
           end in
         mvs <- call (fun board => Ok (available_moves board)) ;;
         if maximizing then
           r <- max_loop (recurse (opponent player) false) player
                         mvs alpha beta NegInf None ;;
           let '(max_eval, best_move) := r in
           score <- call (fun _ => int_of max_eval) ;;
           ret (score, best_move)
         else
           r <- min_loop (recurse (opponent player) true) player
                         mvs alpha beta PosInf None ;;
           let '(min_eval, best_move) := r in
           score <- call (fun _ => int_of min_eval) ;;
           ret (score, best_move)
   end)%M.

(** [random.choice(seq)]: [seq[i]] for the index [i] below [len(seq)] that
    the generator draws; [rnd] is the raw draw. *)
Definition random_choice (rnd : nat) (seq : list nat) : outcome nat :=
  match seq !! (rnd mod length seq) with
  | Some c => Ok c
  | None => Raise IndexError
  end.

(** [all(v is None for v in board)]. *)
Definition all_none (board : Board) : bool :=
  forallb (fun v => match v with None => true | Some _ => false end) board.

(** [best_move_for(board, ai_player)].  Python returns [move] as it is, so
    the result is [None] when the search found no move. *)
Definition best_move_for (fuel : nat) (rnd : nat) (ai_player : mark)
  : M (option nat) :=
  (blank <- call (fun board => Ok (all_none board)) ;;
   if blank : bool then
     c <- call (fun _ => random_choice rnd [0; 2; 4; 6; 8]) ;;
     ret (Some c)
   else
     match ai_player with
     | X =>
         r <- minimax fuel X true NegInf PosInf ;;
         let '(score, move) := r in
         ret move
     | O =>
         r <- minimax fuel O false NegInf PosInf ;;
         let '(score, move) := r in
         ret move
     end)%M.

(** Boards of the program: the list made by [new_board] keeps its nine
    cells under index assignment. *)
Definition wf_board (board : Board) : Prop := length board = 9.

(** ** Reference search without pruning

    The comparison point for the pruned search: the same recursion (terminal
    check, every available move in ascending order, strictly better score
    replaces the choice), with no window and no early exit, on board
    snapshots instead of in-place updates. *)

(** The board after [board[mv] = player]. *)
Definition place (board : Board) (mv : nat) (player : mark) : Board :=
  <[mv := Some player]> board.

(** Number of empty cells. *)
Definition empties (board : Board) : nat := length (available_moves board).

(** Scores of the children, in move order. *)
Fixpoint child_scores (eval : nat -> outcome Z) (mvs : list nat)
  : outcome (list (nat * Z)) :=
  match mvs with
  | [] => Ok []
  | mv :: rest =>
      obind (eval mv) (fun s =>
      obind (child_scores eval rest) (fun l => Ok ((mv, s) :: l)))
  end.

(** Running choice over scored moves: a later move replaces the current one
    only on a strictly better score. *)
Fixpoint strict_best (better : Z -> Z -> bool) (scored : list (nat * Z))
    (best : Z * nat) : Z * nat :=
  match scored with
  | [] => best
  | (mv, s) :: rest =>
      strict_best better rest (if better s best.1 then (s, mv) else best)
  end.

Fixpoint minimax_unpruned (fuel : nat) (board : Board) (player : mark)
    (maximizing : bool) : outcome (Z * option nat) :=
  obind (check_winner board) (fun winner =>
    match winner with
    | Some X => Ok (1%Z, None)
    | Some O => Ok ((-1)%Z, None)
    | None =>
        if is_board_full board then Ok (0%Z, None)
        else
          match fuel with
          | 0 => OutOfFuel
          | S fuel' =>
              obind (child_scores
                       (fun mv =>
                          obind (minimax_unpruned fuel' (place board mv player)
                                   (opponent player) (negb maximizing))
                                (fun r => Ok r.1))
                       (available_moves board)) (fun scored =>
                match scored with
                | [] => Raise OverflowError
                | (mv, s) :: rest =>
                    let '(best_score, best_move) :=
                      strict_best (if maximizing then Z.gtb else Z.ltb)
                                  rest (s, mv) in
                    Ok (best_score, Some best_move)
                end)
          end
    end).

(** Every index of a win line is below [n]. *)
Definition line_in_range (n : nat) (l : nat * nat * nat) : Prop :=
  l.1.1 < n /\ l.1.2 < n /\ l.2 < n.

(** ** Specification of the search

    The game-theoretic value of a position is the score of the reference
    search; the pruned search is specified against it in the usual
    fail-soft form. *)

(** Strict and weak order on Python numbers, as propositions. *)
Definition elt (a b : ext) : Prop := ext_ltb a b = true.
Definition ele (a b : ext) : Prop := ext_ltb b a = false.

(** Score of the reference search with depth budget [fuel]. *)
Definition value (fuel : nat) (board : Board) (player : mark)
    (maximizing : bool) : Z :=
  match minimax_unpruned fuel board player maximizing with
  | Ok r => r.1
  | _ => 0%Z
  end.

(** The budget [length board] always covers the empty cells. *)
Definition game_value (board : Board) (player : mark) (maximizing : bool) : Z :=
  value (length board) board player maximizing.

(** What a score [s] returned for the window [(alpha, beta)] says about the
    true value [v]: exact inside the window, a bound on the right side
    outside of it. *)
Definition fail_soft (alpha beta : ext) (v s : Z) : Prop :=
  (ele (Fin s) alpha -> (v <= s)%Z) /\
  (ele beta (Fin s) -> (s <= v)%Z) /\
  (elt alpha (Fin s) -> elt (Fin s) beta -> s = v).

(** *** The two branches as one loop

    The minimizing branch is the maximizing branch read in the reversed
    order, with the roles of [alpha] and [beta] exchanged.  [dir_loop] is
    that common loop: [lo] is the bound the loop raises and [hi] the bound
    it is cut off against. *)
Inductive dir : Type := Up | Down.

Definition dltb (d : dir) (a b : ext) : bool :=
  match d with
  | Up => ext_ltb a b
  | Down => ext_ltb b a
  end.

Definition dlt (d : dir) (a b : ext) : Prop := dltb d a b = true.
Definition dle (d : dir) (a b : ext) : Prop := dltb d b a = false.

(** The start value of the running best score. *)
Definition bot (d : dir) : ext :=
  match d with
  | Up => NegInf
  | Down => PosInf
  end.

Fixpoint dir_loop (d : dir) (recurse : ext -> ext -> M (Z * option nat))
    (player : mark) (mvs : list nat) (lo hi ev : ext) (best_move : option nat)
  : M (ext * option nat) :=
  match mvs with
  | [] => ret (ev, best_move)
  | mv :: rest =>
      (setitem mv (Some player) ;;
       r <- recurse lo hi ;;
       let eval_score := r.1 in
       setitem mv None ;;
       let '(ev, best_move) :=
         if dltb d ev (Fin eval_score)
         then (Fin eval_score, Some mv)
         else (ev, best_move) in
       let lo := if dltb d lo (Fin eval_score) then Fin eval_score else lo in
       if negb (dltb d lo hi) then ret (ev, best_move)
       else dir_loop d recurse player rest lo hi ev best_move)%M
  end.

(** Fail-soft in direction [d]. *)
Definition dfs (d : dir) (lo hi : ext) (v s : Z) : Prop :=
  (dle d (Fin s) lo -> dle d (Fin v) (Fin s)) /\
  (dle d hi (Fin s) -> dle d (Fin s) (Fin v)) /\
  (dlt d lo (Fin s) -> dlt d (Fin s) hi -> s = v).

(** The recursive call on [child] returns, leaves the board as it was, and
    is fail-soft with respect to [v] for any proper window. *)
Definition child_ok (d : dir) (recurse : ext -> ext -> M (Z * option nat))
    (child : Board) (v : Z) : Prop :=
  forall lo hi, exists s m,
    recurse lo hi child = (child, Ok (s, m)) /\
    (dlt d lo hi -> dfs d lo hi v s).

(** What the state [(ev', best')] at the end of the loop over [mvs], started
    with window [(lo, hi)], says about the values [V mv] of the children. *)
Definition loop_post (d : dir) (V : nat -> Z) (mvs : list nat) (lo hi : ext)
    (ev' : ext) (best' : option nat) : Prop :=
  (dle d ev' lo -> forall mv, mv ∈ mvs -> dle d (Fin (V mv)) ev') /\
  (dlt d lo ev' -> dlt d ev' hi ->
     (forall mv, mv ∈ mvs -> dle d (Fin (V mv)) ev') /\
     exists m, m ∈ mvs /\ best' = Some m /\ ev' = Fin (V m)) /\
  (dle d hi ev' ->
     exists m, m ∈ mvs /\ best' = Some m /\ dle d ev' (Fin (V m))).

(** The loop either kept its choice or moved to a strictly better score. *)
Definition kept_or_improved (d : dir) (mvs : list nat)
    (ev : ext) (best : option nat) (ev' : ext) (best' : option nat) : Prop :=
  (ev' = ev /\ best' = best) \/
  (exists m s, m ∈ mvs /\ best' = Some m /\ ev' = Fin s /\ dlt d ev ev').

(** The mode of a node as a direction, and "strictly better" in it. *)
Definition dir_of (maximizing : bool) : dir :=
  if maximizing then Up else Down.

Definition better (d : dir) : Z -> Z -> bool :=
  match d with
  | Up => Z.gtb
  | Down => Z.ltb
  end.

(** Score of a finished position: a win for either mark or a full board
    without winner; [None] while the game is open. *)
Definition terminal_score (board : Board) : option Z :=
  match check_winner board with
  | Ok (Some X) => Some 1%Z
  | Ok (Some O) => Some (-1)%Z
  | Ok None => if is_board_full board then Some 0%Z else None
  | _ => None
  end.

(** ** Win lines, as the specification words them *)

(** All three cells of line [l] hold mark [m]. *)
Definition line_won (board : Board) (l : nat * nat * nat) (m : mark) : Prop :=
  board !! l.1.1 = Some (Some m) /\
  board !! l.1.2 = Some (Some m) /\
  board !! l.2 = Some (Some m).

(** The three rows, the three columns and the two diagonals of the grid. *)
Definition grid_rows : list (nat * nat * nat) :=
  map (fun r => (3 * r, 3 * r + 1, 3 * r + 2)) [0; 1; 2].
Definition grid_columns : list (nat * nat * nat) :=
  map (fun c => (c, c + 3, c + 6)) [0; 1; 2].
Definition grid_diagonals : list (nat * nat * nat) :=
  [(0, 4, 8); (2, 4, 6)].

(** A run that did not exhaust its depth budget, and that left the board as
    it found it if it returned a value. *)
Definition settled {A} (board : Board) (r : Board * outcome A) : Prop :=
  match r with
  | (board', Ok _) => board' = board
  | (_, Raise _) => True
  | (_, OutOfFuel) => False
  end.

(** A board on which both marks hold a line; ['O'] holds the earlier one. *)
Definition both_lines_board : Board :=
  [Some O; Some O; Some O; Some X; Some X; Some X; None; None; None].

(** The boards of the two move examples of the specification. *)
Definition win_now_board : Board :=
  [Some X; Some X; None; Some O; Some O; None; None; None; None].
Definition block_now_board : Board :=
  [Some O; Some O; None; Some X; None; None; None; None; None].

(** The cells [best_move_for] opens with on an empty board. *)
Definition opening_cells : list nat := [0; 2; 4; 6; 8].

(** A finished board for the examples: full, no completed line. *)
Definition drawn_board : Board :=
  [Some X; Some O; Some X; Some X; Some O; Some O; Some O; Some X; Some X].

(** ** What a node's loop sees

    The pairs (move, [eval_score]) in the order in which the loop of a node
    meets them: the same placements, recursive calls with the window as
    narrowed so far, and the same early exit as [max_loop] and [min_loop],
    recording instead of choosing. *)
Fixpoint max_visits (recurse : ext -> ext -> M (Z * option nat))
    (player : mark) (mvs : list nat) (alpha beta : ext)
  : M (list (nat * Z)) :=
  match mvs with
  | [] => ret []
  | mv :: rest =>
      (setitem mv (Some player) ;;
       r <- recurse alpha beta ;;
       let eval_score := r.1 in
       setitem mv None ;;
       let alpha := ext_max alpha (Fin eval_score) in
       if ext_leb beta alpha then ret [(mv, eval_score)]
       else
         seen <- max_visits recurse player rest alpha beta ;;
         ret ((mv, eval_score) :: seen))%M
  end.

Fixpoint min_visits (recurse : ext -> ext -> M (Z * option nat))
    (player : mark) (mvs : list nat) (alpha beta : ext)
  : M (list (nat * Z)) :=
  match mvs with
  | [] => ret []
  | mv :: rest =>
      (setitem mv (Some player) ;;
       r <- recurse alpha beta ;;
       let eval_score := r.1 in
       setitem mv None ;;
       let beta := ext_min beta (Fin eval_score) in
       if ext_leb beta alpha then ret [(mv, eval_score)]
       else
         seen <- min_visits recurse player rest alpha beta ;;
         ret ((mv, eval_score) :: seen))%M
  end.

(** The visits of the node [minimax] is called on, when the position is
    open. *)
Definition node_visits (fuel : nat) (player : mark) (maximizing : bool)
    (alpha beta : ext) : M (list (nat * Z)) :=
  let recurse :=
    match fuel with
    | 0 => fun _ _ _ _ => out_of_fuel
    | S fuel' => minimax fuel'
    end in
  (mvs <- call (fun board => Ok (available_moves board)) ;;
   if maximizing
   then max_visits (recurse (opponent player) false) player mvs alpha beta
   else min_visits (recurse (opponent player) true) player mvs alpha beta)%M.

(** Both in one, as for the loops. *)
Fixpoint dir_visits (d : dir) (recurse : ext -> ext -> M (Z * option nat))
    (player : mark) (mvs : list nat) (lo hi : ext) : M (list (nat * Z)) :=
  match mvs with
  | [] => ret []
  | mv :: rest =>
      (setitem mv (Some player) ;;
       r <- recurse lo hi ;;
       let eval_score := r.1 in
       setitem mv None ;;
       let lo := if dltb d lo (Fin eval_score) then Fin eval_score else lo in
       if negb (dltb d lo hi) then ret [(mv, eval_score)]
       else
         seen <- dir_visits d recurse player rest lo hi ;;
         ret ((mv, eval_score) :: seen))%M
  end.

(** [(m, s)] is the first entry of [seen] with the greatest score. *)
Definition first_greatest (seen : list (nat * Z)) (m : nat) (s : Z) : Prop :=
  exists pre post,
    seen = pre ++ (m, s) :: post /\
    (forall x, x ∈ pre -> (x.2 < s)%Z) /\
    (forall x, x ∈ post -> (x.2 <= s)%Z).

(** [(m, s)] is the first entry of [seen] with the least score. *)
Definition first_least (seen : list (nat * Z)) (m : nat) (s : Z) : Prop :=
  exists pre post,
    seen = pre ++ (m, s) :: post /\
    (forall x, x ∈ pre -> (s < x.2)%Z) /\
    (forall x, x ∈ post -> (s <= x.2)%Z).

Definition first_best (d : dir) (seen : list (nat * Z)) (m : nat) (s : Z)
  : Prop :=
  exists pre post,
    seen = pre ++ (m, s) :: post /\
    (forall x, x ∈ pre -> dlt d (Fin x.2) (Fin s)) /\
    (forall x, x ∈ post -> dle d (Fin x.2) (Fin s)).

(** ** Games

    [best_move_for] searches with X as the maximizing and O as the
    minimizing side. *)
Definition maximizes (p : mark) : bool :=
  match p with
  | X => true
  | O => false
  end.

(** The value of a position for the mark to move, in the search's scale. *)
Definition position_value (board : Board) (p : mark) : Z :=
  game_value board p (maximizes p).

(** The score at which mark [e] has won. *)
Definition win_score (e : mark) : Z :=
  match e with
  | X => 1%Z
  | O => (-1)%Z
  end.

(** The score of the full-window search, when it returns one. *)
Definition search_score (n : nat) (p : mark) (board : Board) : option Z :=
  match minimax n p (maximizes p) NegInf PosInf board with
  | (_, Ok (s, _)) => Some s
  | _ => None
  end.

(** The turn loop of [play_game] from [board] with [p] to move, up to the
    board on which [game_over] stops it.  A mark for which [engine] holds
    moves by [best_move_for] (with any draw of the random source); the other
    moves by [human_move], which accepts any index of an empty cell.  The
    move is applied by [board[pos] = player] and the turn passes to
    [opponent(current)]. *)
Inductive plays (engine : mark -> bool) : Board -> mark -> Board -> Prop :=
  | plays_over board p :
      game_over board = Ok true ->
      plays engine board p board
  | plays_engine board p rnd mv final :
      game_over board = Ok false ->
      engine p = true ->
      best_move_for 9 rnd p board = (board, Ok (Some mv)) ->
      plays engine (place board mv p) (opponent p) final ->
      plays engine board p final
  | plays_other board p mv final :
      game_over board = Ok false ->
      engine p = false ->
      mv ∈ available_moves board ->
      plays engine (place board mv p) (opponent p) final ->
      plays engine board p final.

(** The engine plays mark [e] only. *)
Definition only (e : mark) : mark -> bool := fun p => bool_decide (p = e).

(** The engine plays both marks. *)
Definition both : mark -> bool := fun _ => true.

(** The far end of the scale in direction [d]: the bound a full window is
    cut off against. *)
Definition top (d : dir) : ext :=
  match d with
  | Up => PosInf
  | Down => NegInf
  end.

(** ** Text

    Python strings are modelled by their UTF-8 bytes. *)

(** ["\n"]. *)
Definition newline : string := String (ascii_of_nat 10) "".

(** [str(n)] for a natural number. *)
Definition str_of_nat (n : nat) : string :=
  NilEmpty.string_of_uint (Nat.to_uint n).

(** A mark as the string the program stores. *)
Definition mark_str (m : mark) : string :=
  match m with
  | X => "X"
  | O => "O"
  end.

(** A list comprehension [[f(x) for x in l]] whose body may raise. *)
Fixpoint for_each {A B} (f : A -> outcome B) (l : list A) : outcome (list B) :=
  match l with
  | [] => Ok []
  | x :: rest =>
      obind (f x) (fun y => obind (for_each f rest) (fun ys => Ok (y :: ys)))
  end.

(** The inner function [cell(i)] of [pretty_board]. *)
Definition cell_text (board : Board) (i : nat) : outcome string :=
  obind (getitem board i) (fun v =>
    match v with
    | Some m => Ok (mark_str m)
    | None => Ok (str_of_nat (i + 1))
    end).

(** One row: [f" {cell(r*3)} | {cell(r*3+1)} | {cell(r*3+2)} "]. *)
Definition row_text (board : Board) (r : nat) : outcome string :=
  obind (cell_text board (r * 3)) (fun a =>
  obind (cell_text board (r * 3 + 1)) (fun b =>
  obind (cell_text board (r * 3 + 2)) (fun c =>
  Ok (" " +:+ a +:+ " | " +:+ b +:+ " | " +:+ c +:+ " ")))).

(** [pretty_board(board)]. *)
Definition pretty_board (board : Board) : outcome string :=
  obind (for_each (row_text board) [0; 1; 2]) (fun rows =>
    let sep := newline +:+ "---+---+---" +:+ newline in
    Ok (String.concat sep rows)).

(** Where the text of [pretty_board] shows cell [i], and what it shows
    there. *)
Definition cell_offset (i : nat) : nat := 24 * (i / 3) + 4 * (i mod 3) + 1.

Definition cell_glyph (c : option mark) (i : nat) : ascii :=
  match c with
  | Some X => "X"%char
  | Some O => "O"%char
  | None => ascii_of_nat (48 + (i + 1))
  end.

(** ** Console programs

    What a program writes and reads.  [print(text)] is recorded as
    [Printed text] (without the newline [print] adds) and [input(prompt)] as
    [Asked prompt]; a log lists the events with the most recent first.
    Standard input is the list of the lines still to be read. *)
Inductive event : Type :=
  | Printed (text : string)
  | Asked (prompt : string).

(** Why a run stops before its end: a Python exception of the board code, the
    end of standard input, [None + 1], or (for the two loops that are driven
    by a budget) the budget running out. *)
Inductive failure : Type :=
  | Exn (e : exn)
  | EOFError
  | TypeError
  | Depth.

Inductive run (A : Type) : Type :=
  | Done (a : A) (lines : list string) (out : list event)
  | Failed (f : failure) (lines : list string) (out : list event).
Arguments Done {A} a lines out.
Arguments Failed {A} f lines out.

Definition rbind {A B} (r : run A)
    (k : A -> list string -> list event -> run B) : run B :=
  match r with
  | Done a lines out => k a lines out
  | Failed f lines out => Failed f lines out
  end.

(** The failure an [outcome] of the board code turns into. *)
Definition failure_of {A} (o : outcome A) : failure :=
  match o with
  | Raise e => Exn e
  | _ => Depth
  end.

(** [needle in hay] on strings. *)
Fixpoint contains (needle hay : string) : bool :=
  String.prefix needle hay ||
  match hay with
  | EmptyString => false
  | String _ rest => contains needle rest
  end.

Section Console.
(** Python's string methods and [int], left uninterpreted: [s.strip()],
    [s.upper()], [s.lower()], and [int(s)] with [None] for [ValueError]. *)
Variable py_strip : string -> string.
Variable py_upper : string -> string.
Variable py_lower : string -> string.
Variable py_int : string -> option Z.
(** [py_random k]: the index [random.choice] draws at its call number [k]. *)
Variable py_random : nat -> nat.

(** *** The chat program *)

(** [chatbot_response(user_input)]. *)
Definition chatbot_response (user_input : string) : string :=
  let user_input := py_lower user_input in
  if contains "hello" user_input || contains "hi" user_input then
    "Hello! 👋 How can I help you today?"
  else if contains "how are you" user_input then
    "I'm just a program, but I'm doing great! 😄 How about you?"
  else if contains "your name" user_input then
    "I’m a simple chatbot 🤖 created using Python and rule-based logic."
  else if contains "bye" user_input || contains "goodbye" user_input then
    "Goodbye! 👋 Have a wonderful day!"
  else if contains "weather" user_input then
    "I can’t check the weather 🌦️ right now, but you can ask a weather app!"
  else
    "Hmm 🤔 I don’t understand that yet. Could you try rephrasing?".

(** The [while True] loop of the chat program. *)
Fixpoint chat_loop (lines : list string) (out : list event) : run unit :=
  let out := Asked "You: " :: out in
  match lines with
  | [] => Failed EOFError [] out
  | user_input :: lines =>
      let response := chatbot_response user_input in
      let out := Printed ("Chatbot: " +:+ response) :: out in
      if contains "bye" (py_lower user_input)
         || contains "goodbye" (py_lower user_input)
      then Done tt lines out
      else chat_loop lines out
  end.

(** The chat program: the banner, then the loop. *)
Definition chat_main (lines : list string) : run unit :=
  chat_loop lines
    [Printed ("🤖 Chatbot: Hi! I'm your chatbot. Type 'bye' anytime to exit."
              +:+ newline)].

(** *** The game program *)

(** [print_board(board)]. *)
Definition print_board (board : Board) (lines : list string)
    (out : list event) : run unit :=
  match pretty_board board with
  | Ok text => Done tt lines (Printed text :: out)
  | o => Failed (failure_of o) lines out
  end.

(** [human_move(board, human_player)]: one round of the loop per line
    read. *)
Fixpoint human_move (board : Board) (human_player : mark)
    (lines : list string) (out : list event) : run nat :=
  let out :=
    Asked ("Your move (" +:+ mark_str human_player +:+ "). Enter 1-9: ")
    :: out in
  match lines with
  | [] => Failed EOFError [] out
  | s :: lines =>
      match py_int (py_strip s) with
      | None =>
          human_move board human_player lines
            (Printed "Please enter a valid number (1-9)." :: out)
      | Some n =>
          let pos := (n - 1)%Z in
          if (pos <? 0)%Z || (8 <? pos)%Z then
            human_move board human_player lines
              (Printed "Please enter a number from 1 to 9." :: out)
          else
            match getitem board (Z.to_nat pos) with
            | Ok None => Done (Z.to_nat pos) lines out
            | Ok (Some _) =>
                human_move board human_player lines
                  (Printed "That spot is already taken. Choose another."
                   :: out)
            | o => Failed (failure_of o) lines out
            end
      end
  end.

(** [board[pos] = player] in [play_game]. *)
Definition mark_cell (board : Board) (pos : nat) (player : mark)
    (lines : list string) (out : list event) : run Board :=
  match setitem pos (Some player) board with
  | (board', Ok _) => Done board' lines out
  | (_, o) => Failed (failure_of o) lines out
  end.

(** The human's turn: [pos = human_move(board, human_player)], then
    [board[pos] = human_player]. *)
Definition human_turn_step (board : Board) (human_player : mark)
    (lines : list string) (out : list event) : run Board :=
  rbind (human_move board human_player lines out) (fun pos lines out =>
    mark_cell board pos human_player lines out).

(** The AI's turn: the two prints around [best_move_for], then
    [board[pos] = ai_player].  [k] counts the calls of [random.choice] so
    far; [depth] is the depth budget of the search. *)
Definition ai_turn_step (depth : nat) (board : Board) (ai_player : mark)
    (k : nat) (lines : list string) (out : list event) : run (Board * nat) :=
  let out := Printed "AI is thinking..." :: out in
  let k' := if all_none board then S k else k in
  match best_move_for depth (py_random k) ai_player board with
  | (board, Ok (Some pos)) =>
      let out :=
        Printed ("AI plays at position " +:+ str_of_nat (pos + 1)
                 +:+ " (" +:+ mark_str ai_player +:+ ")") :: out in
      rbind (mark_cell board pos ai_player lines out) (fun board lines out =>
        Done (board, k') lines out)
  | (_, Ok None) => Failed TypeError lines out
  | (_, o) => Failed (failure_of o) lines out
  end.

(** The [while True] loop of [play_game], up to its [break]; the result is
    the board the loop leaves.  [fuel] bounds the number of rounds. *)
Fixpoint game_loop (fuel depth : nat) (human_player ai_player : mark)
    (board : Board) (current : mark) (human_turn : bool) (k : nat)
    (lines : list string) (out : list event) : run Board :=
  let out := Printed (newline +:+ "Current board:") :: out in
  rbind (print_board board lines out) (fun _ lines out =>
    match game_over board with
    | Ok true => Done board lines out
    | Ok false =>
        match fuel with
        | 0 => Failed Depth lines out
        | S fuel' =>
            if human_turn && bool_decide (current = human_player) then
              rbind (human_turn_step board human_player lines out)
                (fun board lines out =>
                   game_loop fuel' depth human_player ai_player board
                     (opponent current) false k lines out)
            else if negb human_turn && bool_decide (current = ai_player) then
              rbind (ai_turn_step depth board ai_player k lines out)
                (fun bk lines out =>
                   game_loop fuel' depth human_player ai_player bk.1
                     (opponent current) true bk.2 lines out)
            else if bool_decide (current = human_player) then
              rbind (human_turn_step board human_player lines out)
                (fun board lines out =>
                   game_loop fuel' depth human_player ai_player board
                     (opponent current) (negb human_turn) k lines out)
            else
              rbind (ai_turn_step depth board ai_player k lines out)
                (fun bk lines out =>
                   game_loop fuel' depth human_player ai_player bk.1
                     (opponent current) (negb human_turn) bk.2 lines out)
        end
    | o => Failed (failure_of o) lines out
    end).

(** The end of [play_game]: the final board and the verdict. *)
Definition announce (human_player : mark) (board : Board)
    (lines : list string) (out : list event) : run unit :=
  let out := Printed (newline +:+ "Final board:") :: out in
  rbind (print_board board lines out) (fun _ lines out =>
    match check_winner board with
    | Ok (Some winner) =>
        if bool_decide (winner = human_player) then
          Done tt lines
            (Printed ("Wow, you actually beat the AI! "
                      +:+ "(This isn’t supposed to happen!)" +:+ newline)
             :: out)
        else
          Done tt lines
            (Printed ("AI wins. Better luck next time!" +:+ newline) :: out)
    | Ok None => Done tt lines (Printed ("It's a draw!" +:+ newline) :: out)
    | o => Failed (failure_of o) lines out
    end).

(** The first question of [play_game], until the answer is X or O. *)
Fixpoint ask_mark (lines : list string) (out : list event) : run mark :=
  let out := Asked "Do you want to be X or O? (X goes first) " :: out in
  match lines with
  | [] => Failed EOFError [] out
  | s :: lines =>
      let human_player := py_upper (py_strip s) in
      if String.eqb human_player "X" then Done X lines out
      else if String.eqb human_player "O" then Done O lines out
      else ask_mark lines (Printed "Please enter X or O." :: out)
  end.

(** The second question, until the answer is empty, H or A. *)
Fixpoint ask_first (lines : list string) (out : list event) : run string :=
  let out :=
    Asked "Who moves first? (H)uman or (A)I? [default H] " :: out in
  match lines with
  | [] => Failed EOFError [] out
  | s :: lines =>
      let first := py_upper (py_strip s) in
      if String.eqb first "" || String.eqb first "H" || String.eqb first "A"
      then Done first lines out
      else
        ask_first lines
          (Printed "Enter H or A (or just press Enter for Human first)."
           :: out)
  end.

(** [play_game] from the point where both answers are in. *)
Definition run_game (fuel depth : nat) (human_player : mark) (first : string)
    (lines : list string) (out : list event) : run unit :=
  let ai_player := opponent human_player in
  let human_turn := negb (String.eqb first "A") in
  let board := new_board in
  let current := X in
  rbind (game_loop fuel depth human_player ai_player board current human_turn
                   0 lines out)
        (fun board lines out => announce human_player board lines out).

(** [play_game()]. *)
Definition play_game (fuel depth : nat) (lines : list string) : run unit :=
  let out :=
    [Printed ("Welcome to Tic-Tac-Toe with an unbeatable AI!" +:+ newline)] in
  rbind (ask_mark lines out) (fun human_player lines out =>
  rbind (ask_first lines out) (fun first lines out =>
    run_game fuel depth human_player first lines out)).
End Console.

(** Stand-ins for the built-ins, for the examples: one decimal digit as
    [int] reads it. *)
Definition digit_int (s : string) : option Z :=
  match s with
  | String c EmptyString =>
      let n := nat_of_ascii c in
      if (48 <=? n) && (n <=? 57) then Some (Z.of_nat (n - 48)) else None
  | _ => None
  end.

(** What [human_move] makes of a line: the cell it accepts, or the message
    it answers a refused line with. *)
Definition accepted (py_strip : string -> string) (py_int : string -> option Z)
    (board : Board) (s : string) (pos : nat) : Prop :=
  py_int (py_strip s) = Some (Z.of_nat pos + 1)%Z /\
  pos < 9 /\ board !! pos = Some None.

Definition refusal (py_strip : string -> string) (py_int : string -> option Z)
    (s : string) : string :=
  match py_int (py_strip s) with
  | None => "Please enter a valid number (1-9)."
  | Some n =>
      if (n <? 1)%Z || (9 <? n)%Z then "Please enter a number from 1 to 9."
      else "That spot is already taken. Choose another."
  end.

(** The log of [human_move] after the lines [refused], oldest first: for
    each the prompt and the refusal. *)
Definition refusals (py_strip : string -> string) (py_int : string -> option Z)
    (human_player : mark) (refused : list string) : list event :=
  flat_map (fun s =>
      [Asked ("Your move (" +:+ mark_str human_player +:+ "). Enter 1-9: ");
       Printed (refusal py_strip py_int s)]) refused.

(** The two verdicts [play_game] can end on when the AI has not lost. *)
Definition ai_wins_text : string :=
  "AI wins. Better luck next time!" +:+ newline.
Definition draw_text : string := "It's a draw!" +:+ newline.

(** The chat program's log for one line read, oldest first, and the test
    its loop ends on as it comes out (the second disjunct, "goodbye", never
    adds anything). *)
Definition exchange (py_lower : string -> string) (l : string) : list event :=
  [Asked "You: "; Printed ("Chatbot: " +:+ chatbot_response py_lower l)].

Definition says_bye (py_lower : string -> string) (l : string) : bool :=
  contains "bye" (py_lower l).

Definition chat_banner : event :=
  Printed ("🤖 Chatbot: Hi! I'm your chatbot. Type 'bye' anytime to exit."
           +:+ newline).

Definition farewell_text : string := "Goodbye! 👋 Have a wonderful day!".

Definition greeting_text : string := "Hello! 👋 How can I help you today?".

(** ** Exchanging the marks *)

(** The board with every X turned into O and every O into X. *)
Definition swap_marks (board : Board) : Board :=
  map (fun c : option mark => opponent <$> c) board.

(** [-x] on Python numbers. *)
Definition ext_neg (x : ext) : ext :=
  match x with
  | NegInf => PosInf
  | Fin z => Fin (- z)
  | PosInf => NegInf
  end.

(** A result read from the other side: marks exchanged on the board, the
    value changed by [f]. *)
Definition mirror {A} (f : A -> A) (r : Board * outcome A)
  : Board * outcome A :=
  (swap_marks r.1,
   match r.2 with
   | Ok a => Ok (f a)
   | Raise e => Raise e
   | OutOfFuel => OutOfFuel
   end).

Definition neg_score (r : Z * option nat) : Z * option nat := (- r.1, r.2)%Z.

Definition neg_eval (r : ext * option nat) : ext * option nat :=
  (ext_neg r.1, r.2).

Definition flip_dir (d : dir) : dir :=
  match d with
  | Up => Down
  | Down => Up
  end.

(** The recursive call of [minimax] at depth budget [fuel]. *)
Definition recurse_at (fuel : nat)
  : mark -> bool -> ext -> ext -> M (Z * option nat) :=
  match fuel with
  | 0 => fun _ _ _ _ => out_of_fuel
  | S fuel' => minimax fuel'
  end.

(** * Verification *)

(** ** Python numbers *)

Ltac ext_cases :=
  repeat match goal with x : ext |- _ => destruct x end.

Ltac ext_norm :=
  unfold ext_leb, ext_max, ext_min, ext_ltb in *; simpl in *;
  repeat match goal with
    | |- context [Z.ltb ?x ?y] => destruct (Z.ltb_spec x y)
    | H : context [Z.ltb ?x ?y] |- _ => destruct (Z.ltb_spec x y)
    end; simpl in *.

(** ** Board queries *)

Lemma available_from_spec (board : Board) (i mv : nat) :
  mv ∈ available_from i board <-> i <= mv /\ board !! (mv - i) = Some None.
Proof.
  revert i. induction board as [|c rest IH]; intros i; simpl.
  - rewrite elem_of_nil. split; [done | intros [_ [=]]].
  - assert (Hrest : mv ∈ available_from (S i) rest <->
                    i < mv /\ (c :: rest) !! (mv - i) = Some None).
    { rewrite IH. split.
      - intros [Hle Hl]. split; [lia|].
        replace (mv - i) with (S (mv - S i)) by lia. exact Hl.
      - intros [Hlt Hl]. split; [lia|].
        replace (mv - i) with (S (mv - S i)) in Hl by lia. exact Hl. }
    destruct c as [m|].
    + rewrite Hrest. split.
      * intros [Hlt Hl]. split; [lia | done].
      * intros [Hle Hl]. split; [|done].
        destruct (decide (mv = i)) as [->|]; [|lia].
        rewrite Nat.sub_diag in Hl. done.
    + rewrite elem_of_cons, Hrest. split.
      * intros [->|[Hlt Hl]]; [|split; [lia|done]].
        split; [lia|]. by rewrite Nat.sub_diag.
      * intros [Hle Hl].
        destruct (decide (mv = i)) as [->|]; [by left|right].
        split; [lia|done].
Qed.

Lemma available_moves_spec (board : Board) (mv : nat) :
  mv ∈ available_moves board <-> board !! mv = Some None.
Proof.
  unfold available_moves. rewrite available_from_spec, Nat.sub_0_r.
  split; [tauto | split; [lia | done]].
Qed.

Lemma available_from_lb (board : Board) (i mv : nat) :
  mv ∈ available_from i board -> i <= mv.
Proof. rewrite available_from_spec. tauto. Qed.

Lemma available_from_sorted (board : Board) (i : nat) :
  StronglySorted lt (available_from i board).
Proof.
  revert i. induction board as [|[m|] rest IH]; intros i; simpl.
  - constructor.
  - apply IH.
  - constructor; [apply IH|].
    apply list.Forall_forall. intros mv Hmv.
    apply available_from_lb in Hmv. lia.
Qed.

Lemma is_board_full_available (board : Board) :
  is_board_full board = true <-> available_moves board = [].
Proof.
  unfold available_moves. generalize 0.
  induction board as [|[m|] rest IH]; intros i; simpl; [done| |done].
  apply IH.
Qed.

Lemma is_board_full_false (board : Board) :
  is_board_full board = false -> exists mv, mv ∈ available_moves board.
Proof.
  intros Hf. destruct (available_moves board) as [|mv l] eqn:E.
  - apply is_board_full_available in E. congruence.
  - exists mv. left.
Qed.

Lemma available_from_length (board : Board) (i : nat) :
  length (available_from i board) <= length board.
Proof.
  revert i. induction board as [|[m|] rest IH]; intros i; simpl; [lia| |].
  - specialize (IH (S i)). lia.
  - specialize (IH (S i)). lia.
Qed.

Lemma empties_le_length (board : Board) : empties board <= length board.
Proof. apply available_from_length. Qed.

Lemma available_from_place (board : Board) (i mv : nat) (p : mark) :
  board !! mv = Some None ->
  S (length (available_from i (<[mv := Some p]> board)))
  = length (available_from i board).
Proof.
  revert i mv. induction board as [|c rest IH]; intros i mv Hl; [done|].
  destruct mv as [|mv]; simpl in *.
  - by simplify_eq.
  - destruct c; simpl; by rewrite (IH _ mv).
Qed.

Lemma empties_place (board : Board) (mv : nat) (p : mark) :
  board !! mv = Some None -> S (empties (place board mv p)) = empties board.
Proof. apply available_from_place. Qed.

Lemma place_undo (board : Board) (mv : nat) (p : mark) :
  board !! mv = Some None -> <[mv := None]> (place board mv p) = board.
Proof.
  intros Hl. unfold place. rewrite list_insert_insert_eq.
  by apply list_insert_id.
Qed.

Lemma wf_place (board : Board) (mv : nat) (p : mark) :
  wf_board board -> wf_board (place board mv p).
Proof. unfold wf_board, place. by rewrite length_insert. Qed.

(** ** Reading win lines *)

Lemma getitem_lookup (board : Board) (i : nat) :
  i < length board -> exists v, board !! i = Some v /\ getitem board i = Ok v.
Proof.
  intros Hi. destruct (lookup_lt_is_Some_2 board i Hi) as [v Hv].
  exists v. unfold getitem. by rewrite Hv.
Qed.

Lemma win_lines_in_range : Forall (line_in_range 9) WIN_LINES.
Proof. unfold WIN_LINES, line_in_range. repeat constructor; simpl; lia. Qed.

Lemma check_lines_total (lines : list (nat * nat * nat)) (board : Board) :
  Forall (line_in_range (length board)) lines ->
  exists w, check_lines lines board = Ok w.
Proof.
  induction 1 as [|[[a b] c] rest (Ha & Hb & Hc) _ IH]; simpl in *; [eauto|].
  destruct (getitem_lookup board a Ha) as (va & _ & ->).
  destruct (getitem_lookup board b Hb) as (vb & _ & ->).
  destruct (getitem_lookup board c Hc) as (vc & _ & ->). simpl.
  destruct va; [|done]. repeat case_decide; eauto.
Qed.

Lemma check_winner_total (board : Board) :
  wf_board board -> exists w, check_winner board = Ok w.
Proof.
  intros Hwf. apply check_lines_total. rewrite Hwf. apply win_lines_in_range.
Qed.

(** ** The loops *)

Ltac ext_auto :=
  unfold elt, ele, dlt, dle, dltb, bot in *; ext_cases; ext_norm;
  try done; try lia.

Section Order.
Variable d : dir.

Lemma dle_refl a : dle d a a.
Proof. destruct d; ext_auto. Qed.

Lemma dlt_dle a b : dlt d a b -> dle d a b.
Proof. destruct d; ext_auto. Qed.

Lemma dle_trans a b c : dle d a b -> dle d b c -> dle d a c.
Proof. destruct d; ext_auto. Qed.

Lemma dlt_dle_trans a b c : dlt d a b -> dle d b c -> dlt d a c.
Proof. destruct d; ext_auto. Qed.

Lemma dle_dlt_trans a b c : dle d a b -> dlt d b c -> dlt d a c.
Proof. destruct d; ext_auto. Qed.

Lemma dlt_not_dle a b : dlt d a b -> dle d b a -> False.
Proof. unfold dlt, dle. congruence. Qed.

Lemma dle_antisym a b : dle d a b -> dle d b a -> a = b.
Proof. destruct d; ext_auto; intros _ _; f_equal; lia. Qed.

Lemma dle_or_dlt a b : dle d a b \/ dlt d b a.
Proof. unfold dlt, dle. destruct (dltb d b a); auto. Qed.

Lemma dlt_bot s : dlt d (bot d) (Fin s).
Proof. destruct d; ext_auto. Qed.
End Order.

Lemma max_loop_dir recurse player mvs alpha beta max_eval best board :
  max_loop recurse player mvs alpha beta max_eval best board
  = dir_loop Up recurse player mvs alpha beta max_eval best board.
Proof.
  revert alpha max_eval best board.
  induction mvs as [|mv rest IH]; intros alpha max_eval best board; [done|].
  cbn [max_loop dir_loop dltb]. unfold bind, ext_leb, ext_max.
  destruct (setitem mv (Some player) board) as [b1 [[]| |]]; try done.
  destruct (recurse alpha beta b1) as [b2 [r| |]]; try done.
  destruct (setitem mv None b2) as [b3 [[]| |]]; try done.
  destruct (ext_ltb max_eval (Fin r.1)), (ext_ltb alpha (Fin r.1));
    (destruct (negb _); [done | apply IH]).
Qed.

Lemma min_loop_dir recurse player mvs alpha beta min_eval best board :
  min_loop recurse player mvs alpha beta min_eval best board
  = dir_loop Down (fun lo hi => recurse hi lo) player mvs
             beta alpha min_eval best board.
Proof.
  revert beta min_eval best board.
  induction mvs as [|mv rest IH]; intros beta min_eval best board; [done|].
  cbn [min_loop dir_loop dltb]. unfold bind, ext_leb, ext_min.
  destruct (setitem mv (Some player) board) as [b1 [[]| |]]; try done.
  destruct (recurse alpha beta b1) as [b2 [r| |]]; try done.
  destruct (setitem mv None b2) as [b3 [[]| |]]; try done.
  destruct (ext_ltb (Fin r.1) min_eval), (ext_ltb (Fin r.1) beta);
    (destruct (negb _); [done | apply IH]).
Qed.

Section LoopSpec.
Variable d : dir.
Variable recurse : ext -> ext -> M (Z * option nat).
Variable player : mark.
Variable board : Board.
Variable V : nat -> Z.

Lemma dir_loop_step mv rest lo hi ev best s m :
  board !! mv = Some None ->
  recurse lo hi (place board mv player)
  = (place board mv player, Ok (s, m)) ->
  dir_loop d recurse player (mv :: rest) lo hi ev best board
  = let st := if dltb d ev (Fin s) then (Fin s, Some mv) else (ev, best) in
    let lo' := if dltb d lo (Fin s) then Fin s else lo in
    if negb (dltb d lo' hi) then (board, Ok st)
    else dir_loop d recurse player rest lo' hi st.1 st.2 board.
Proof.
  intros Hmv Hrec. simpl. unfold bind at 1. unfold setitem at 1.
  rewrite decide_True by (by eapply lookup_lt_Some).
  unfold bind at 1. fold (place board mv player). rewrite Hrec.
  unfold bind at 1. unfold setitem at 1.
  rewrite decide_True
    by (unfold place; rewrite length_insert; by eapply lookup_lt_Some).
  rewrite place_undo by done. simpl.
  destruct (dltb d ev (Fin s)); simpl;
    destruct (negb _); reflexivity.
Qed.

Lemma dir_loop_spec mvs :
  (forall mv, mv ∈ mvs -> board !! mv = Some None) ->
  (forall mv, mv ∈ mvs ->
     child_ok d recurse (place board mv player) (V mv)) ->
  forall lo hi ev best,
  exists ev' best',
    dir_loop d recurse player mvs lo hi ev best board
    = (board, Ok (ev', best')) /\
    kept_or_improved d mvs ev best ev' best' /\
    (mvs <> [] -> ev = bot d -> ev' <> bot d) /\
    (dle d ev lo -> dlt d lo hi -> loop_post d V mvs lo hi ev' best').
Proof.
  induction mvs as [|mv rest IH]; intros Hav Hrec lo hi ev best.
  - exists ev, best. split; [reflexivity|]. split; [by left|].
    split; [done|]. intros Hle Hlt.
    split; [intros _ mv Hmv; by apply elem_of_nil in Hmv|].
    split.
    + intros H1 _. destruct (dlt_not_dle d _ _ H1 Hle).
    + intros H1. destruct (dlt_not_dle d _ _ Hlt).
      by apply dle_trans with ev.
  - destruct (Hrec mv ltac:(left) lo hi) as (s & m & Hr & Hfs).
    rewrite (dir_loop_step _ _ _ _ _ _ _ _ (Hav mv ltac:(left)) Hr).
    cbv zeta.
    set (st := if dltb d ev (Fin s) then _ else _).
    set (lo' := if dltb d lo (Fin s) then _ else _).
    assert (Hst : (dlt d ev (Fin s) /\ st = (Fin s, Some mv)) \/
                  (dle d (Fin s) ev /\ st = (ev, best))).
    { subst st. unfold dlt, dle. destruct (dltb d ev (Fin s)); auto. }
    assert (Hlo : (dlt d lo (Fin s) /\ lo' = Fin s) \/
                  (dle d (Fin s) lo /\ lo' = lo)).
    { subst lo'. unfold dlt, dle. destruct (dltb d lo (Fin s)); auto. }
    clearbody st lo'. destruct st as [ev1 best1].
    assert (Hkeep1 : kept_or_improved d (mv :: rest) ev best ev1 best1).
    { destruct Hst as [[H1 [= -> ->]]|[H1 [= -> ->]]]; [right|by left].
      exists mv, s. repeat split; [left|done]. }
    assert (Hbot1 : ev = bot d -> ev1 <> bot d).
    { intros ->. destruct Hst as [[H1 [= -> ->]]|[H1 [= -> ->]]].
      - by destruct d.
      - destruct (dlt_not_dle d _ _ (dlt_bot d s) H1). }
    destruct (dltb d lo' hi) eqn:Hcut; simpl negb; cbv iota.
    + (* the loop goes on *)
      destruct (IH (fun x Hx => Hav x (list_elem_of_further _ _ _ Hx))
                   (fun x Hx => Hrec x (list_elem_of_further _ _ _ Hx))
                   lo' hi ev1 best1)
        as (ev' & best' & Hloop & Hkeep & _ & Hpost).
      exists ev', best'. split; [exact Hloop|].
      assert (Hmono : dle d ev1 ev').
      { destruct Hkeep as [[-> _]|(_ & _ & _ & _ & _ & H1)];
          [apply dle_refl | by apply dlt_dle]. }
      split.
      { destruct Hkeep as [[-> ->]|(m' & s' & Hm' & -> & -> & Hlt')];
          [exact Hkeep1|].
        right. exists m', s'. repeat split; [by right|].
        destruct Hkeep1 as [[-> _]|(_ & _ & _ & _ & _ & H1)]; [done|].
        eapply dlt_dle_trans; [exact H1 | by apply dlt_dle]. }
      split.
      { intros _ Hev Hev'. specialize (Hbot1 Hev).
        destruct Hkeep as [[-> _]|(_ & s' & _ & _ & -> & _)]; [done|].
        by destruct d. }
      intros Hle Hlt. specialize (Hfs Hlt). destruct Hfs as (Hf1 & Hf2 & Hf3).
      assert (Hs1 : dle d (Fin s) ev1).
      { destruct Hst as [[_ [= -> _]]|[H1 [= -> _]]];
          [apply dle_refl | exact H1]. }
      assert (Hle1 : dle d ev1 lo').
      { destruct Hst as [[H1 [= -> _]]|[H1 [= -> _]]];
          destruct Hlo as [[H2 ->]|[H2 ->]];
          [apply dle_refl | exact H2 | | exact Hle].
        apply dlt_dle. eapply dle_dlt_trans; [exact Hle | exact H2]. }
      destruct (Hpost Hle1 Hcut) as (P1 & P2 & P3).
      split; [|split].
      * intros Hq.
        assert (Hs : dle d (Fin s) lo).
        { eapply dle_trans; [exact Hs1|].
          eapply dle_trans; [exact Hmono | exact Hq]. }
        destruct Hlo as [[H2 _]|[_ ->]];
          [destruct (dlt_not_dle d _ _ H2 Hs)|].
        intros x [->|Hx]%elem_of_cons; [|by apply P1].
        eapply dle_trans; [exact (Hf1 Hs)|].
        eapply dle_trans; [exact Hs1 | exact Hmono].
      * intros H1 H2. destruct (dle_or_dlt d ev' lo') as [Hc|Hc].
        -- destruct Hlo as [[H3 ->]|[_ ->]];
             [|destruct (dlt_not_dle d _ _ H1 Hc)].
           pose proof (Hf3 H3 Hcut) as ->.
           destruct Hst as [[_ [= -> ->]]|[H4 _]].
           2:{ destruct (dlt_not_dle d _ _ H3).
               eapply dle_trans; [exact H4 | exact Hle]. }
           assert (ev' = Fin (V mv)) as -> by (by apply (dle_antisym d)).
           destruct Hkeep as [[_ ->]|(_ & _ & _ & _ & _ & H5)].
           2:{ destruct (dlt_not_dle d _ _ H5 (dle_refl d _)). }
           split; [|exists mv; repeat split; left].
           intros x [->|Hx]%elem_of_cons; [apply dle_refl | by apply P1].
        -- destruct (P2 Hc H2) as (Hb & m' & Hm' & -> & ->).
           split; [|exists m'; repeat split; by right].
           intros x [->|Hx]%elem_of_cons; [|by apply Hb].
           destruct Hlo as [[H3 ->]|[H3 ->]].
           ++ pose proof (Hf3 H3 Hcut) as ->. by apply dlt_dle.
           ++ eapply dle_trans; [exact (Hf1 H3)|].
              eapply dle_trans; [exact H3 | by apply dlt_dle].
      * intros Hq. destruct (P3 Hq) as (m' & Hm' & -> & Hv).
        exists m'. repeat split; [by right | exact Hv].
    + (* cut off *)
      exists ev1, best1. split; [reflexivity|].
      split; [exact Hkeep1|]. split; [intros _; exact Hbot1|].
      intros Hle Hlt. specialize (Hfs Hlt). destruct Hfs as (Hf1 & Hf2 & Hf3).
      change (dle d hi lo') in Hcut.
      destruct Hlo as [[H1 ->]|[_ ->]]; [|destruct (dlt_not_dle d _ _ Hlt Hcut)].
      destruct Hst as [[_ [= -> ->]]|[H2 _]].
      2:{ destruct (dlt_not_dle d _ _ H1).
          eapply dle_trans; [exact H2 | exact Hle]. }
      split; [|split].
      * intros Hq. destruct (dlt_not_dle d _ _ H1 Hq).
      * intros _ Hq. destruct (dlt_not_dle d _ _ Hq Hcut).
      * intros _. exists mv. repeat split; [left | exact (Hf2 Hcut)].
Qed.
End LoopSpec.

(** ** The reference search *)

Lemma child_scores_ext (f g : nat -> outcome Z) (mvs : list nat) :
  (forall mv, mv ∈ mvs -> f mv = g mv) ->
  child_scores f mvs = child_scores g mvs.
Proof.
  induction mvs as [|mv rest IH]; intros Hfg; [done|]. simpl.
  rewrite (Hfg mv) by left. rewrite IH; [done|].
  intros x Hx. apply Hfg. by right.
Qed.

Lemma child_scores_ok (f : nat -> outcome Z) (V : nat -> Z) (mvs : list nat) :
  (forall mv, mv ∈ mvs -> f mv = Ok (V mv)) ->
  child_scores f mvs = Ok (map (fun mv => (mv, V mv)) mvs).
Proof.
  induction mvs as [|mv rest IH]; intros Hf; [done|]. simpl.
  rewrite (Hf mv) by left. simpl. rewrite IH; [done|].
  intros x Hx. apply Hf. by right.
Qed.

Lemma empties_zero_full (board : Board) :
  empties board = 0 -> is_board_full board = true.
Proof.
  intros H. apply is_board_full_available.
  by apply length_zero_iff_nil.
Qed.

Lemma minimax_unpruned_fuel (n n' : nat) (board : Board) (player : mark)
    (maximizing : bool) :
  empties board <= n -> empties board <= n' ->
  minimax_unpruned n board player maximizing
  = minimax_unpruned n' board player maximizing.
Proof.
  revert n' board player maximizing.
  induction n as [|n IH]; intros n' board player maximizing Hn Hn'.
  - assert (Hfull : is_board_full board = true)
      by (apply empties_zero_full; lia).
    destruct n'; simpl; rewrite Hfull; reflexivity.
  - destruct n' as [|n'].
    + assert (Hfull : is_board_full board = true)
        by (apply empties_zero_full; lia).
      simpl; rewrite Hfull; reflexivity.
    + simpl. destruct (check_winner board) as [[[|]|]| |]; simpl; try done.
      destruct (is_board_full board); [done|].
      rewrite (child_scores_ext _
        (fun mv => obind (minimax_unpruned n' (place board mv player)
                            (opponent player) (negb maximizing))
                         (fun r => Ok r.1))); [done|].
      intros mv Hmv. apply available_moves_spec in Hmv.
      pose proof (empties_place board mv player Hmv).
      rewrite (IH n'); [done|lia|lia].
Qed.

Lemma strict_best_spec (d : dir) (scored : list (nat * Z)) (s0 : Z) (m0 : nat) :
  let r := strict_best (better d) scored (s0, m0) in
  ((r.2, r.1) = (m0, s0) \/ (r.2, r.1) ∈ scored) /\
  dle d (Fin s0) (Fin r.1) /\
  forall x, x ∈ scored -> dle d (Fin x.2) (Fin r.1).
Proof.
  revert s0 m0. induction scored as [|[mv s] rest IH]; intros s0 m0; simpl.
  - split; [by left|]. split; [apply dle_refl|].
    intros x Hx. by apply elem_of_nil in Hx.
  - destruct (better d s s0) eqn:Hb; simpl.
    + destruct (IH s mv) as (H1 & H2 & H3).
      split; [right; destruct H1 as [->|H1]; [left | by right]|].
      assert (Hs0 : dle d (Fin s0) (Fin s)) by (destruct d; ext_auto).
      split; [by eapply dle_trans|].
      intros x [->|Hx]%elem_of_cons; [exact H2 | by apply H3].
    + destruct (IH s0 m0) as (H1 & H2 & H3).
      split; [destruct H1 as [H1|H1]; [by left | right; by right]|].
      split; [exact H2|].
      intros x [->|Hx]%elem_of_cons; [|by apply H3].
      assert (Hs0 : dle d (Fin s) (Fin s0)) by (destruct d; ext_auto).
      by eapply dle_trans.
Qed.

Lemma terminal_score_open (board : Board) :
  wf_board board -> terminal_score board = None ->
  check_winner board = Ok None /\ is_board_full board = false.
Proof.
  intros Hwf. unfold terminal_score.
  destruct (check_winner_total board Hwf) as [w ->].
  destruct w as [[|]|]; [done|done|].
  by destruct (is_board_full board).
Qed.

Lemma minimax_unpruned_terminal (n : nat) (board : Board) (player : mark)
    (maximizing : bool) (z : Z) :
  terminal_score board = Some z ->
  minimax_unpruned n board player maximizing = Ok (z, None).
Proof.
  unfold terminal_score. intros Ht.
  destruct n; simpl;
    (destruct (check_winner board) as [[[|]|]| |]; simpl; try done;
     [by simplify_eq | by simplify_eq |
      destruct (is_board_full board); by simplify_eq]).
Qed.

Lemma value_game_value (n : nat) (board : Board) (player : mark)
    (maximizing : bool) :
  empties board <= n ->
  value n board player maximizing = game_value board player maximizing.
Proof.
  intros Hn. unfold game_value, value.
  rewrite (minimax_unpruned_fuel n (length board)); [done|done|].
  apply empties_le_length.
Qed.

Lemma minimax_unpruned_total (n : nat) (board : Board) (player : mark)
    (maximizing : bool) :
  wf_board board -> empties board <= n ->
  exists s mv, minimax_unpruned n board player maximizing = Ok (s, mv).
Proof.
  revert board player maximizing.
  induction n as [|n IH]; intros board player maximizing Hwf Hn.
  - destruct (terminal_score board) as [z|] eqn:Ht.
    + exists z, None. by apply minimax_unpruned_terminal.
    + apply terminal_score_open in Ht as [_ Hf]; [|done].
      rewrite empties_zero_full in Hf; [done|lia].
  - destruct (terminal_score board) as [z|] eqn:Ht.
    + exists z, None. by apply minimax_unpruned_terminal.
    + apply terminal_score_open in Ht as [Hw Hf]; [|done].
      simpl. rewrite Hw. simpl. rewrite Hf.
      rewrite (child_scores_ok _
        (fun mv => value n (place board mv player) (opponent player)
                     (negb maximizing))).
      * simpl. destruct (is_board_full_false board Hf) as [mv Hmv].
        destruct (available_moves board) as [|m0 rest];
          [by apply elem_of_nil in Hmv|]. simpl.
        destruct (strict_best _ _ _). eauto.
      * intros mv Hmv. apply available_moves_spec in Hmv.
        pose proof (empties_place board mv player Hmv).
        destruct (IH (place board mv player) (opponent player)
                     (negb maximizing)) as (s & m & Hs);
          [by apply wf_place | lia |].
        unfold value. by rewrite Hs.
Qed.

Lemma minimax_unpruned_value (n : nat) (board : Board) (player : mark)
    (maximizing : bool) :
  wf_board board -> empties board <= n ->
  exists mv, minimax_unpruned n board player maximizing
             = Ok (game_value board player maximizing, mv).
Proof.
  intros Hwf Hn.
  destruct (minimax_unpruned_total n board player maximizing Hwf Hn)
    as (s & mv & Hs).
  exists mv. rewrite <- (value_game_value n) by done.
  unfold value. by rewrite Hs.
Qed.

Lemma game_value_terminal (board : Board) (player : mark) (maximizing : bool)
    (z : Z) :
  terminal_score board = Some z -> game_value board player maximizing = z.
Proof.
  intros Ht. unfold game_value, value.
  by rewrite (minimax_unpruned_terminal _ _ _ _ z).
Qed.

(** The value of an open position is the best child value for the side to
    move, and some available move attains it. *)
Lemma game_value_open (board : Board) (player : mark) (maximizing : bool) :
  wf_board board -> terminal_score board = None ->
  let V mv := game_value (place board mv player) (opponent player)
                         (negb maximizing) in
  let v := game_value board player maximizing in
  (exists m, m ∈ available_moves board /\ V m = v) /\
  (forall mv, mv ∈ available_moves board ->
     dle (dir_of maximizing) (Fin (V mv)) (Fin v)).
Proof.
  intros Hwf Ht V v.
  apply terminal_score_open in Ht as [Hw Hf]; [|done].
  destruct (is_board_full_false board Hf) as [mv0 Hmv0].
  assert (Hpos : 0 < empties board).
  { unfold empties. destruct (available_moves board);
      [by apply elem_of_nil in Hmv0 | simpl; lia]. }
  pose proof (empties_le_length board) as Hlen.
  assert (Hv : v = value (length board) board player maximizing) by done.
  unfold value in Hv.
  destruct (length board) as [|n] eqn:Hn; [lia|].
  simpl in Hv. rewrite Hw in Hv. simpl in Hv. rewrite Hf in Hv.
  rewrite (child_scores_ok _ V) in Hv.
  2:{ intros mv Hmv. apply available_moves_spec in Hmv.
      pose proof (empties_place board mv player Hmv).
      destruct (minimax_unpruned_value n (place board mv player)
                  (opponent player) (negb maximizing)) as (m & Hs);
        [by apply wf_place | lia |].
      by rewrite Hs. }
  simpl in Hv.
  assert (Hbetter : (if maximizing then Z.gtb else Z.ltb)
                    = better (dir_of maximizing)) by (by destruct maximizing).
  rewrite Hbetter in Hv. clear Hbetter.
  destruct (available_moves board) as [|m0 rest];
    [by apply elem_of_nil in Hmv0|].
  simpl in Hv.
  pose proof (strict_best_spec (dir_of maximizing)
                (map (fun mv => (mv, V mv)) rest) (V m0) m0) as (H1 & H2 & H3).
  destruct (strict_best _ _ _) as [bs bm]. simpl in *. subst bs.
  split.
  - destruct H1 as [[= -> Hvm]|H1]; [exists m0; split; [left|done]|].
    apply list_elem_of_fmap in H1 as (x & [= -> Hvm] & Hx).
    exists x. split; [by right | done].
  - intros mv [->|Hmv]%elem_of_cons; [exact H2|].
    apply (H3 (mv, V mv)). apply list_elem_of_fmap. by exists mv.
Qed.

(** ** The pruned search *)

Lemma fail_soft_up alpha beta v s :
  fail_soft alpha beta v s <-> dfs Up alpha beta v s.
Proof.
  unfold fail_soft, dfs. unfold ele, elt, dle, dlt, dltb.
  replace (ext_ltb (Fin s) (Fin v)) with (s <? v)%Z by done.
  replace (ext_ltb (Fin v) (Fin s)) with (v <? s)%Z by done.
  rewrite !Z.ltb_ge. tauto.
Qed.

Lemma fail_soft_down alpha beta v s :
  fail_soft alpha beta v s <-> dfs Down beta alpha v s.
Proof.
  unfold fail_soft, dfs. unfold ele, elt, dle, dlt, dltb.
  replace (ext_ltb (Fin s) (Fin v)) with (s <? v)%Z by done.
  replace (ext_ltb (Fin v) (Fin s)) with (v <? s)%Z by done.
  rewrite !Z.ltb_ge. tauto.
Qed.

Lemma dle_bot (d : dir) (a : ext) : dle d (bot d) a.
Proof. destruct d; ext_auto. Qed.

(** The loop of a node, from its start state: a move is chosen, the score
    is a number, and the board is back. *)
Lemma node_loop (d : dir) (recurse : ext -> ext -> M (Z * option nat))
    (player : mark) (board : Board) (V : nat -> Z) (lo hi : ext) :
  (forall mv, mv ∈ available_moves board ->
     child_ok d recurse (place board mv player) (V mv)) ->
  available_moves board <> [] ->
  exists s m,
    dir_loop d recurse player (available_moves board) lo hi (bot d) None board
    = (board, Ok (Fin s, Some m)) /\
    m ∈ available_moves board /\
    (dlt d lo hi ->
     loop_post d V (available_moves board) lo hi (Fin s) (Some m)).
Proof.
  intros Hrec Hne.
  destruct (dir_loop_spec d recurse player board V (available_moves board)
              (fun mv Hmv => proj1 (available_moves_spec board mv) Hmv)
              Hrec lo hi (bot d) None)
    as (ev' & best' & Hloop & Hkeep & Hbot & Hpost).
  destruct Hkeep as [[-> _]|(m & s & Hm & -> & -> & _)];
    [by destruct (Hbot Hne)|].
  exists s, m. split; [exact Hloop|]. split; [exact Hm|].
  intros Hlt. apply Hpost; [apply dle_bot | exact Hlt].
Qed.

(** From the loop's result to the node's: fail-soft with respect to the
    value [v] of the node, and exact at the chosen move inside the window. *)
Lemma node_from_loop (d : dir) (V : nat -> Z) (mvs : list nat) (lo hi : ext)
    (v s : Z) (m : nat) :
  (exists m', m' ∈ mvs /\ V m' = v) ->
  (forall mv, mv ∈ mvs -> dle d (Fin (V mv)) (Fin v)) ->
  loop_post d V mvs lo hi (Fin s) (Some m) ->
  dfs d lo hi v s /\
  (dlt d lo (Fin s) -> dlt d (Fin s) hi -> V m = s).
Proof.
  intros (m' & Hm' & Hv) Hub (P1 & P2 & P3). split; [split; [|split]|].
  - intros H1. subst v. by apply (P1 H1).
  - intros H1. destruct (P3 H1) as (x & Hx & [= <-] & H2).
    eapply dle_trans; [exact H2 | by apply Hub].
  - intros H1 H2. destruct (P2 H1 H2) as (Hb & x & Hx & [= <-] & [= ->]).
    assert (Fin (V m) = Fin v) as [= ->]; [|done].
    apply (dle_antisym d); [by apply Hub | subst v; by apply Hb].
  - intros H1 H2. by destruct (P2 H1 H2) as (_ & x & _ & [= <-] & [= ->]).
Qed.

Lemma minimax_terminal (n : nat) (player : mark) (maximizing : bool)
    (alpha beta : ext) (board : Board) (z : Z) :
  terminal_score board = Some z ->
  minimax n player maximizing alpha beta board = (board, Ok (z, None)).
Proof.
  unfold terminal_score. intros Ht.
  destruct n; simpl; unfold bind, call;
    (destruct (check_winner board) as [[[|]|]| |]; simpl; try done;
     [by simplify_eq | by simplify_eq |
      destruct (is_board_full board); by simplify_eq]).
Qed.

Lemma minimax_open (n : nat) (player : mark) (maximizing : bool)
    (alpha beta : ext) (board : Board) :
  check_winner board = Ok None -> is_board_full board = false ->
  minimax (S n) player maximizing alpha beta board
  = bind (if maximizing
          then dir_loop Up (minimax n (opponent player) false) player
                 (available_moves board) alpha beta NegInf None
          else dir_loop Down
                 (fun lo hi => minimax n (opponent player) true hi lo) player
                 (available_moves board) beta alpha PosInf None)
         (fun r => bind (call (fun _ => int_of r.1))
                        (fun score => ret (score, r.2))) board.
Proof.
  intros Hw Hf. simpl. unfold bind at 1, call at 1. rewrite Hw.
  unfold bind at 1, call at 1. rewrite Hf.
  unfold bind at 1, call at 1.
  destruct maximizing; unfold bind at 1 3.
  - rewrite max_loop_dir. by destruct (dir_loop _ _ _ _ _ _ _ _ _) as [? [[]| |]].
  - rewrite min_loop_dir. by destruct (dir_loop _ _ _ _ _ _ _ _ _) as [? [[]| |]].
Qed.

Lemma fail_soft_exact alpha beta v : fail_soft alpha beta v v.
Proof. unfold fail_soft. repeat split; intros; lia. Qed.

(** The pruned search on a board of the program, with a depth budget that
    covers the empty cells: it returns, the board is as before, the move is
    [None] exactly on finished positions and an empty cell otherwise, and for
    a proper window the score is fail-soft with respect to the value of the
    position, exact at the chosen move when it falls inside the window. *)
Lemma minimax_sound (n : nat) :
  forall (board : Board) (player : mark) (maximizing : bool) (alpha beta : ext),
  wf_board board -> empties board <= n ->
  exists s mv,
    minimax n player maximizing alpha beta board = (board, Ok (s, mv)) /\
    match terminal_score board with
    | Some z => s = z /\ mv = None
    | None => exists m, mv = Some m /\ m ∈ available_moves board
    end /\
    (elt alpha beta ->
     fail_soft alpha beta (game_value board player maximizing) s /\
     (elt alpha (Fin s) -> elt (Fin s) beta -> forall m, mv = Some m ->
      game_value (place board m player) (opponent player) (negb maximizing)
      = s)).
Proof.
  induction n as [|n IH]; intros board player maximizing alpha beta Hwf Hn;
    destruct (terminal_score board) as [z|] eqn:Ht.
  1,3: exists z, None; split; [by apply minimax_terminal|];
       split; [done|]; intros _;
       rewrite (game_value_terminal _ _ _ z Ht);
       split; [apply fail_soft_exact | done].
  - apply terminal_score_open in Ht as [_ Hf]; [|done].
    rewrite empties_zero_full in Hf; [done|lia].
  - pose proof Ht as Hopen.
    apply terminal_score_open in Ht as [Hw Hf]; [|done].
    assert (Hne : available_moves board <> []).
    { intros E. apply is_board_full_available in E. congruence. }
    rewrite (minimax_open _ _ _ _ _ _ Hw Hf).
    destruct (game_value_open board player maximizing Hwf Hopen)
      as [Hex Hub].
    set (V := fun mv => game_value (place board mv player) (opponent player)
                          (negb maximizing)) in *.
    assert (Hchild : forall mv a b, mv ∈ available_moves board ->
              exists s m,
                minimax n (opponent player) (negb maximizing) a b
                        (place board mv player)
                = (place board mv player, Ok (s, m)) /\
                (elt a b -> fail_soft a b (V mv) s)).
    { intros mv a b Hmv. apply available_moves_spec in Hmv.
      pose proof (empties_place board mv player Hmv).
      destruct (IH (place board mv player) (opponent player)
                   (negb maximizing) a b) as (s & m & Hs & _ & Hfs);
        [by apply wf_place | lia |].
      exists s, m. split; [exact Hs|]. intros Hlt. by apply Hfs. }
    destruct maximizing; simpl negb in *.
    + destruct (node_loop Up (minimax n (opponent player) false) player board
                  V alpha beta) as (s & m & Hloop & Hm & Hpost); [|done|].
      { intros mv Hmv lo hi.
        destruct (Hchild mv lo hi Hmv) as (s & m & Hs & Hfs).
        exists s, m. split; [exact Hs|]. intros Hlt.
        by apply fail_soft_up, Hfs. }
      exists s, (Some m). unfold bind at 1. cbn [bot] in Hloop.
      rewrite Hloop. split; [reflexivity|]. split; [by exists m|].
      intros Hlt.
      destruct (node_from_loop Up V _ alpha beta _ s m Hex Hub (Hpost Hlt))
        as [Hd Hbest].
      split; [by apply fail_soft_up|].
      intros H1 H2 m' [= <-]. by apply Hbest.
    + destruct (node_loop Down
                  (fun lo hi => minimax n (opponent player) true hi lo)
                  player board V beta alpha)
        as (s & m & Hloop & Hm & Hpost); [|done|].
      { intros mv Hmv lo hi.
        destruct (Hchild mv hi lo Hmv) as (s & m & Hs & Hfs).
        exists s, m. split; [exact Hs|]. intros Hlt.
        by apply fail_soft_down, Hfs. }
      exists s, (Some m). unfold bind at 1. cbn [bot] in Hloop.
      rewrite Hloop. split; [reflexivity|]. split; [by exists m|].
      intros Hlt.
      destruct (node_from_loop Down V _ beta alpha _ s m Hex Hub (Hpost Hlt))
        as [Hd Hbest].
      split; [by apply fail_soft_down|].
      intros H1 H2 m' [= <-]. by apply Hbest.
Qed.

(** ** [check_winner] *)

Lemma line_won_functional (board : Board) (l : nat * nat * nat) (m m' : mark) :
  line_won board l m -> line_won board l m' -> m = m'.
Proof. intros (H1 & _) (H2 & _). congruence. Qed.

(** One round of the loop over the lines. *)
Lemma check_lines_cons (board : Board) (l : nat * nat * nat)
    (rest : list (nat * nat * nat)) :
  line_in_range (length board) l ->
  (exists m, line_won board l m /\
             check_lines (l :: rest) board = Ok (Some m)) \/
  ((forall m, ~ line_won board l m) /\
   check_lines (l :: rest) board = check_lines rest board).
Proof.
  destruct l as [[a b] c]. intros (Ha & Hb & Hc); simpl in *.
  destruct (getitem_lookup board a Ha) as (va & Hva & ->).
  destruct (getitem_lookup board b Hb) as (vb & Hvb & ->).
  destruct (getitem_lookup board c Hc) as (vc & Hvc & ->).
  unfold line_won; simpl.
  destruct va as [m|]; simpl.
  - destruct (decide (Some m = vb)) as [<-|Hne].
    + destruct (decide (Some m = vc)) as [<-|Hne].
      * left. by exists m.
      * right. split; [|done]. intros m' (H1 & _ & H3). congruence.
    + right. split; [|done]. intros m' (H1 & H2 & _). congruence.
  - right. split; [|done]. intros m' (H1 & _). congruence.
Qed.

Lemma check_lines_won (board : Board) (lines : list (nat * nat * nat))
    (m : mark) :
  Forall (line_in_range (length board)) lines ->
  check_lines lines board = Ok (Some m) <->
  exists pre l post,
    lines = pre ++ l :: post /\ line_won board l m /\
    forall l' m', l' ∈ pre -> ~ line_won board l' m'.
Proof.
  induction 1 as [|l rest Hl _ IH].
  - split; [done|]. intros (pre & l & post & E & _).
    destruct pre; discriminate.
  - destruct (check_lines_cons board l rest Hl)
      as [(m0 & Hwon & ->)|[Hnot ->]].
    + split.
      * intros [= ->]. exists [], l, rest. split; [done|]. split; [done|].
        intros l' m' Hl'. by apply elem_of_nil in Hl'.
      * intros (pre & l1 & post & E & Hw & Hpre). f_equal. f_equal.
        destruct pre as [|l0 pre]; simplify_eq/=.
        -- by eapply line_won_functional.
        -- destruct (Hpre l0 m0); [left | done].
    + rewrite IH. split.
      * intros (pre & l1 & post & -> & Hw & Hpre).
        exists (l :: pre), l1, post. split; [done|]. split; [done|].
        intros l' m' [->|Hl']%elem_of_cons; [apply Hnot | by apply Hpre].
      * intros (pre & l1 & post & E & Hw & Hpre).
        destruct pre as [|l0 pre]; simplify_eq/=.
        -- destruct (Hnot m Hw).
        -- exists pre, l1, post. split; [done|]. split; [done|].
           intros l' m' Hl'. apply Hpre. by right.
Qed.

Lemma check_lines_none (board : Board) (lines : list (nat * nat * nat)) :
  Forall (line_in_range (length board)) lines ->
  check_lines lines board = Ok None <->
  forall l m, l ∈ lines -> ~ line_won board l m.
Proof.
  induction 1 as [|l rest Hl _ IH].
  - split; [|done]. intros _ l m Hl. by apply elem_of_nil in Hl.
  - destruct (check_lines_cons board l rest Hl)
      as [(m0 & Hwon & ->)|[Hnot ->]].
    + split; [done|]. intros Hno. destruct (Hno l m0); [left | done].
    + rewrite IH. split.
      * intros Hno l' m [->|Hl']%elem_of_cons; [apply Hnot | by apply Hno].
      * intros Hno l' m Hl'. apply Hno. by right.
Qed.

(** C4: on every board of nine cells, [check_winner] goes through the eight
    fixed win lines (three rows, three columns, two diagonals, in that
    order) and returns the mark of the first line whose three cells hold the
    same mark; it returns [None] exactly when no line is held by one mark. *)
Theorem check_winner_first_line (board : Board) :
  wf_board board ->
  WIN_LINES = grid_rows ++ grid_columns ++ grid_diagonals /\
  length WIN_LINES = 8 /\
  (forall m,
     check_winner board = Ok (Some m) <->
     exists pre l post,
       WIN_LINES = pre ++ l :: post /\ line_won board l m /\
       forall l' m', l' ∈ pre -> ~ line_won board l' m') /\
  (check_winner board = Ok None <->
   forall l m, l ∈ WIN_LINES -> ~ line_won board l m).
Proof.
  intros Hwf. split; [reflexivity|]. split; [reflexivity|].
  assert (Hr : Forall (line_in_range (length board)) WIN_LINES)
    by (rewrite Hwf; apply win_lines_in_range).
  split; [intros m; by apply check_lines_won | by apply check_lines_none].
Qed.

Lemma check_winner_first_line_witness :
  check_winner drawn_board = Ok None <->
  forall l m, l ∈ WIN_LINES -> ~ line_won drawn_board l m.
Proof.
  apply (check_winner_first_line drawn_board). reflexivity.
Defined.

(** ** Termination and frame, on any list of cells *)

Lemma check_lines_fuel (lines : list (nat * nat * nat)) (board : Board) :
  check_lines lines board <> OutOfFuel.
Proof.
  induction lines as [|[[a b] c] rest IH]; simpl; [done|].
  unfold getitem.
  destruct (board !! a) as [[m|]|]; simpl; try done.
  destruct (board !! b) as [vb|]; simpl; try done.
  case_decide; [|done].
  destruct (board !! c) as [vc|]; simpl; try done.
  by case_decide.
Qed.

Lemma dir_loop_settled (d : dir) (recurse : ext -> ext -> M (Z * option nat))
    (player : mark) (board : Board) (mvs : list nat) :
  (forall mv, mv ∈ mvs -> board !! mv = Some None) ->
  (forall mv lo hi, mv ∈ mvs ->
     settled (place board mv player) (recurse lo hi (place board mv player))) ->
  forall lo hi ev best,
    settled board (dir_loop d recurse player mvs lo hi ev best board).
Proof.
  induction mvs as [|mv rest IH]; intros Hav Hrec lo hi ev best; [done|].
  cbn [dir_loop]. unfold bind at 1. unfold setitem at 1.
  assert (Hmv : board !! mv = Some None) by (apply Hav; left).
  rewrite decide_True by (by eapply lookup_lt_Some).
  unfold bind at 1. fold (place board mv player).
  pose proof (Hrec mv lo hi ltac:(left)) as Hr.
  destruct (recurse lo hi (place board mv player)) as [b2 [r| |]];
    simpl in Hr; [subst b2 | done | done].
  unfold bind at 1. unfold setitem at 1.
  rewrite decide_True
    by (unfold place; rewrite length_insert; by eapply lookup_lt_Some).
  rewrite place_undo by done.
  destruct (dltb d ev (Fin r.1)); (destruct (negb _); [done|]);
    (apply IH; [intros x Hx; apply Hav; by right
               |intros x a b Hx; apply Hrec; by right]).
Qed.

Lemma minimax_settled (n : nat) :
  forall (board : Board) (player : mark) (maximizing : bool) (alpha beta : ext),
  empties board <= n ->
  settled board (minimax n player maximizing alpha beta board).
Proof.
  induction n as [|n IH]; intros board player maximizing alpha beta Hn;
    destruct (check_winner board) as [[[|]|]|e|] eqn:Hw.
  1,6: by rewrite (minimax_terminal _ _ _ _ _ _ 1%Z)
         by (unfold terminal_score; by rewrite Hw).
  1,5: by rewrite (minimax_terminal _ _ _ _ _ _ (-1)%Z)
         by (unfold terminal_score; by rewrite Hw).
  2,5: simpl; unfold bind, call; by rewrite Hw.
  2,4: by destruct (check_lines_fuel WIN_LINES board).
  - rewrite (minimax_terminal _ _ _ _ _ _ 0%Z); [done|].
    unfold terminal_score.
    rewrite Hw, empties_zero_full; [done|lia].
  - destruct (is_board_full board) eqn:Hf.
    { rewrite (minimax_terminal _ _ _ _ _ _ 0%Z); [done|].
      unfold terminal_score. by rewrite Hw, Hf. }
    rewrite (minimax_open _ _ _ _ _ _ Hw Hf). unfold bind at 1.
    assert (Hchild : forall mx mv lo hi, mv ∈ available_moves board ->
              settled (place board mv player)
                (minimax n (opponent player) mx lo hi (place board mv player))).
    { intros mx mv lo hi Hmv. apply available_moves_spec in Hmv.
      pose proof (empties_place board mv player Hmv). apply IH. lia. }
    pose proof (fun mv => proj1 (available_moves_spec board mv)) as Hav.
    destruct maximizing.
    + pose proof (dir_loop_settled Up (minimax n (opponent player) false)
                    player board _ Hav (Hchild false)
                    alpha beta NegInf None) as Hl.
      destruct (dir_loop _ _ _ _ _ _ _ _ _) as [b' [[ev bm]| |]];
        simpl in Hl; [subst b' | done | done].
      by destruct ev.
    + pose proof (dir_loop_settled Down
                    (fun lo hi => minimax n (opponent player) true hi lo)
                    player board _ Hav
                    (fun mv lo hi => Hchild true mv hi lo)
                    beta alpha PosInf None) as Hl.
      destruct (dir_loop _ _ _ _ _ _ _ _ _) as [b' [[ev bm]| |]];
        simpl in Hl; [subst b' | done | done].
      by destruct ev.
Qed.

Lemma dir_loop_ext (d : dir) (rec1 rec2 : ext -> ext -> M (Z * option nat))
    (player : mark) (board : Board) (mvs : list nat) :
  (forall mv, mv ∈ mvs -> board !! mv = Some None) ->
  (forall mv lo hi, mv ∈ mvs ->
     rec1 lo hi (place board mv player) = rec2 lo hi (place board mv player)) ->
  (forall mv lo hi, mv ∈ mvs ->
     settled (place board mv player) (rec1 lo hi (place board mv player))) ->
  forall lo hi ev best,
    dir_loop d rec1 player mvs lo hi ev best board
    = dir_loop d rec2 player mvs lo hi ev best board.
Proof.
  induction mvs as [|mv rest IH]; intros Hav Heq Hset lo hi ev best; [done|].
  cbn [dir_loop]. unfold bind, setitem.
  assert (Hmv : board !! mv = Some None) by (apply Hav; left).
  rewrite !decide_True by (by eapply lookup_lt_Some).
  fold (place board mv player).
  rewrite <- (Heq mv lo hi) by left.
  pose proof (Hset mv lo hi ltac:(left)) as Hr.
  destruct (rec1 lo hi (place board mv player)) as [b2 [r| |]];
    simpl in Hr; [subst b2 | done | done].
  rewrite !decide_True
    by (unfold place; rewrite length_insert; by eapply lookup_lt_Some).
  rewrite place_undo by done.
  destruct (dltb d ev (Fin r.1)); (destruct (negb _); [done|]);
    (apply IH; [intros x Hx; apply Hav; by right
               |intros x a b Hx; apply Heq; by right
               |intros x a b Hx; apply Hset; by right]).
Qed.

Lemma minimax_raise (n : nat) (player : mark) (maximizing : bool)
    (alpha beta : ext) (board : Board) (e : exn) :
  check_winner board = Raise e ->
  minimax n player maximizing alpha beta board = (board, Raise e).
Proof. intros Hw. destruct n; simpl; unfold bind, call; by rewrite Hw. Qed.

Lemma minimax_fuel (n n' : nat) (board : Board) (player : mark)
    (maximizing : bool) (alpha beta : ext) :
  empties board <= n -> empties board <= n' ->
  minimax n player maximizing alpha beta board
  = minimax n' player maximizing alpha beta board.
Proof.
  revert n' board player maximizing alpha beta.
  induction n as [|n IH];
    intros n' board player maximizing alpha beta Hn Hn';
    (destruct (terminal_score board) as [z|] eqn:Ht;
     [by rewrite !(minimax_terminal _ _ _ _ _ _ z)|]);
    (destruct (check_winner board) as [[m|]|e|] eqn:Hw;
     [unfold terminal_score in Ht; rewrite Hw in Ht; by destruct m
     | | by rewrite !(minimax_raise _ _ _ _ _ _ e)
     | by destruct (check_lines_fuel WIN_LINES board)]);
    (assert (Hf : is_board_full board = false)
       by (unfold terminal_score in Ht; rewrite Hw in Ht;
           by destruct (is_board_full board))).
  - rewrite empties_zero_full in Hf; [done|lia].
  - destruct n' as [|n']; [rewrite empties_zero_full in Hf; [done|lia]|].
    rewrite !(minimax_open _ _ _ _ _ _ Hw Hf). unfold bind at 1 3.
    pose proof (fun mv => proj1 (available_moves_spec board mv)) as Hav.
    assert (Hlt : forall mv, mv ∈ available_moves board ->
              empties (place board mv player) <= n /\
              empties (place board mv player) <= n').
    { intros mv Hmv. apply Hav in Hmv.
      pose proof (empties_place board mv player Hmv). lia. }
    destruct maximizing.
    + rewrite (dir_loop_ext Up (minimax n (opponent player) false)
                 (minimax n' (opponent player) false)); [done|done| |].
      * intros mv lo hi Hmv. apply IH; by apply Hlt.
      * intros mv lo hi Hmv. apply minimax_settled. by apply Hlt.
    + rewrite (dir_loop_ext Down
                 (fun lo hi => minimax n (opponent player) true hi lo)
                 (fun lo hi => minimax n' (opponent player) true hi lo));
        [done|done| |].
      * intros mv lo hi Hmv. apply IH; by apply Hlt.
      * intros mv lo hi Hmv. apply minimax_settled. by apply Hlt.
Qed.

(** ** Claims about the search *)

(** The two move examples of the specification: take the win, block the
    loss. *)
Example takes_immediate_win :
  best_move_for 9 0 X win_now_board = (win_now_board, Ok (Some 2)).
Proof. vm_compute. reflexivity. Qed.

Example blocks_immediate_loss :
  best_move_for 9 0 X block_now_board = (block_now_board, Ok (Some 2)).
Proof. vm_compute. reflexivity. Qed.

(** C2: on every board of nine cells, for either mark and either mode, the
    pruned search called with the full window [(-inf, +inf)] returns the
    score that the search without pruning returns (the moves are not
    compared).  Any depth budget that covers the empty cells will do; nine
    always does. *)
Theorem alpha_beta_score_is_minimax_score (board : Board) (player : mark)
    (maximizing : bool) (n : nat) :
  wf_board board -> empties board <= n ->
  exists s mv mv',
    minimax n player maximizing NegInf PosInf board = (board, Ok (s, mv)) /\
    minimax_unpruned n board player maximizing = Ok (s, mv').
Proof.
  intros Hwf Hn.
  destruct (minimax_sound n board player maximizing NegInf PosInf Hwf Hn)
    as (s & mv & Hs & _ & Hfs).
  destruct (Hfs eq_refl) as [(_ & _ & Hex) _].
  destruct (minimax_unpruned_value n board player maximizing Hwf Hn)
    as (mv' & Hu).
  exists s, mv, mv'. split; [exact Hs|].
  rewrite Hu. by rewrite (Hex eq_refl eq_refl).
Qed.

Lemma alpha_beta_score_is_minimax_score_witness :
  exists s mv mv',
    minimax 9 X true NegInf PosInf block_now_board
    = (block_now_board, Ok (s, mv)) /\
    minimax_unpruned 9 block_now_board X true = Ok (s, mv').
Proof.
  apply (alpha_beta_score_is_minimax_score block_now_board X true 9);
    [reflexivity | vm_compute; lia].
Defined.

(** C3: a call of the recursive search leaves the board as it found it.
    On any list of cells, whenever the call returns a value the board it
    leaves behind is the board it was given; on every board of nine cells it
    does return a value.  This holds for every window, so also on the runs
    that leave a loop early because [beta <= alpha]: the placement is undone
    before the test that breaks out of the loop. *)
Theorem minimax_restores_board (board : Board) (player : mark)
    (maximizing : bool) (alpha beta : ext) (n : nat) :
  empties board <= n ->
  (forall board' r,
     minimax n player maximizing alpha beta board = (board', Ok r) ->
     board' = board) /\
  (wf_board board ->
   exists s mv,
     minimax n player maximizing alpha beta board = (board, Ok (s, mv))).
Proof.
  intros Hn. split.
  - intros board' r Hr.
    pose proof (minimax_settled n board player maximizing alpha beta Hn) as H.
    rewrite Hr in H. exact H.
  - intros Hwf.
    destruct (minimax_sound n board player maximizing alpha beta Hwf Hn)
      as (s & mv & Hs & _).
    by exists s, mv.
Qed.

Lemma minimax_restores_board_witness :
  exists s mv,
    minimax 9 O false (Fin 0) (Fin 0) win_now_board
    = (win_now_board, Ok (s, mv)).
Proof.
  apply (minimax_restores_board win_now_board O false (Fin 0) (Fin 0) 9);
    [vm_compute; lia | reflexivity].
Defined.

Lemma game_over_terminal (board : Board) :
  game_over board = Ok true ->
  exists z, terminal_score board = Some z /\ (z = 1 \/ z = 0 \/ z = -1)%Z.
Proof.
  unfold game_over, terminal_score.
  destruct (check_winner board) as [[[|]|]| |]; simpl; try done.
  - intros _. exists 1%Z. auto.
  - intros _. exists (-1)%Z. auto.
  - intros [= ->]. exists 0%Z. auto.
Qed.

Lemma game_over_open (board : Board) :
  game_over board = Ok false ->
  terminal_score board = None /\
  check_winner board = Ok None /\ is_board_full board = false.
Proof.
  unfold game_over, terminal_score.
  destruct (check_winner board) as [[[|]|]| |]; simpl; try done.
  by intros [= ->].
Qed.

Lemma all_none_replicate (board : Board) :
  all_none board = true -> board = replicate (length board) None.
Proof.
  induction board as [|[m|] rest IH]; simpl; [done|done|].
  intros H. f_equal. by apply IH.
Qed.

Lemma all_none_new_board (board : Board) :
  wf_board board -> all_none board = true -> board = new_board.
Proof. intros Hwf H. apply all_none_replicate in H. by rewrite Hwf in H. Qed.

Lemma best_move_for_search (n rnd : nat) (p : mark) (board : Board) :
  all_none board = false ->
  best_move_for n rnd p board
  = bind (minimax n p (if p is X then true else false) NegInf PosInf)
         (fun r => ret r.2) board.
Proof.
  intros Hb. unfold best_move_for. unfold bind at 1, call at 1. rewrite Hb.
  destruct p; unfold bind;
    by destruct (minimax _ _ _ _ _ _) as [? [[]| |]].
Qed.

Lemma best_move_for_opening (n rnd : nat) (p : mark) (board : Board) :
  all_none board = true ->
  exists c, opening_cells !! (rnd mod 5) = Some c /\
            best_move_for n rnd p board = (board, Ok (Some c)).
Proof.
  intros Hb.
  destruct (lookup_lt_is_Some_2 opening_cells (rnd mod 5)) as [c Hc].
  { apply (Nat.mod_upper_bound rnd 5). lia. }
  exists c. split; [exact Hc|].
  unfold best_move_for. unfold bind at 1, call at 1. rewrite Hb.
  unfold bind, call, random_choice. fold opening_cells.
  change (length opening_cells) with 5. by rewrite Hc.
Qed.

(** C5, as the code has it: the terminal check comes before any move is
    tried (no depth budget is needed for it), and its answer follows
    [check_winner]: [(+1, None)] when the first completed line in the fixed
    order is X's, [(-1, None)] when it is O's, [(0, None)] on a full board
    without a completed line.  A mark that holds a line while the other holds
    none is the winner [check_winner] reports. *)
Theorem terminal_check_follows_check_winner (board : Board) (player : mark)
    (maximizing : bool) (alpha beta : ext) (n : nat) :
  wf_board board ->
  (check_winner board = Ok (Some X) ->
   minimax n player maximizing alpha beta board = (board, Ok (1%Z, None))) /\
  (check_winner board = Ok (Some O) ->
   minimax n player maximizing alpha beta board = (board, Ok ((-1)%Z, None))) /\
  (check_winner board = Ok None -> is_board_full board = true ->
   minimax n player maximizing alpha beta board = (board, Ok (0%Z, None))) /\
  (forall m,
     (exists l, l ∈ WIN_LINES /\ line_won board l m) ->
     (forall l, l ∈ WIN_LINES -> ~ line_won board l (opponent m)) ->
     check_winner board = Ok (Some m)).
Proof.
  intros Hwf. repeat split.
  - intros Hw. apply minimax_terminal. unfold terminal_score. by rewrite Hw.
  - intros Hw. apply minimax_terminal. unfold terminal_score. by rewrite Hw.
  - intros Hw Hf. apply minimax_terminal. unfold terminal_score.
    by rewrite Hw, Hf.
  - intros m (l & Hl & Hwon) Hopp.
    assert (Hr : Forall (line_in_range (length board)) WIN_LINES)
      by (rewrite Hwf; apply win_lines_in_range).
    destruct (check_winner_total board Hwf) as [[w|] Hw].
    + apply (check_lines_won board WIN_LINES w Hr) in Hw as Hex.
      destruct Hex as (pre & l1 & post & E & Hw1 & _).
      destruct (decide (w = m)) as [->|Hne]; [done|].
      destruct (Hopp l1).
      * rewrite E. apply elem_of_app. right. left.
      * by destruct w, m.
    + destruct (proj1 (check_lines_none board WIN_LINES Hr) Hw l m Hl Hwon).
Qed.

Lemma terminal_check_follows_check_winner_witness :
  minimax 0 X true NegInf PosInf both_lines_board
  = (both_lines_board, Ok ((-1)%Z, None)).
Proof.
  apply (terminal_check_follows_check_winner both_lines_board X true
           NegInf PosInf 0); reflexivity.
Defined.

(** C5 as stated fails: on this board X holds the line [(3, 4, 5)], yet the
    search answers [(-1, None)], because O holds the earlier line
    [(0, 1, 2)]. *)
Lemma x_line_scored_minus_one :
  wf_board both_lines_board /\
  (3, 4, 5) ∈ WIN_LINES /\ line_won both_lines_board (3, 4, 5) X /\
  minimax 9 X true NegInf PosInf both_lines_board
  = (both_lines_board, Ok ((-1)%Z, None)) /\
  minimax 9 X true NegInf PosInf both_lines_board
  <> (both_lines_board, Ok (1%Z, None)).
Proof.
  split; [reflexivity|]. split; [right; left|]. split; [by repeat split|].
  split; [reflexivity | discriminate].
Qed.

Lemma new_board_open : game_over new_board = Ok false.
Proof. reflexivity. Qed.

Lemma game_over_not_blank (board : Board) :
  wf_board board -> game_over board = Ok true -> all_none board = false.
Proof.
  intros Hwf Hover. destruct (all_none board) eqn:Hb; [|done].
  rewrite (all_none_new_board board Hwf Hb) in Hover. discriminate.
Qed.

Lemma opening_cells_empty (c : nat) :
  c ∈ opening_cells -> c ∈ available_moves new_board.
Proof.
  intros Hc. apply available_moves_spec. unfold opening_cells in Hc.
  repeat (apply elem_of_cons in Hc as [->|Hc]); try reflexivity.
  by apply elem_of_nil in Hc.
Qed.

(** C8: on a finished board of nine cells ([game_over]: a winner, or no
    empty cell) the search returns [None] as its move, with a score among
    -1, 0, +1 and without any depth budget; [best_move_for] hands that
    [None] on (such a board is never the empty one). *)
Theorem terminal_board_has_no_move (board : Board) (player : mark)
    (maximizing : bool) (alpha beta : ext) (n rnd : nat) :
  wf_board board -> game_over board = Ok true ->
  (exists z,
     minimax n player maximizing alpha beta board = (board, Ok (z, None)) /\
     (z = 1 \/ z = 0 \/ z = -1)%Z) /\
  best_move_for n rnd player board = (board, Ok None).
Proof.
  intros Hwf Hover.
  destruct (game_over_terminal board Hover) as (z & Ht & Hz).
  split.
  - exists z. split; [by apply minimax_terminal | exact Hz].
  - rewrite best_move_for_search by (by apply game_over_not_blank).
    unfold bind. by rewrite (minimax_terminal _ _ _ _ _ _ z).
Qed.

Lemma terminal_board_has_no_move_witness :
  (exists z,
     minimax 0 O false NegInf PosInf drawn_board = (drawn_board, Ok (z, None)) /\
     (z = 1 \/ z = 0 \/ z = -1)%Z) /\
  best_move_for 0 3 O drawn_board = (drawn_board, Ok None).
Proof.
  apply (terminal_board_has_no_move drawn_board O false NegInf PosInf 0 3);
    reflexivity.
Defined.

Lemma best_move_for_available (board : Board) (player : mark) (n rnd : nat) :
  wf_board board -> game_over board = Ok false -> empties board <= n ->
  exists mv,
    best_move_for n rnd player board = (board, Ok (Some mv)) /\
    mv ∈ available_moves board.
Proof.
  intros Hwf Hopen Hn.
  destruct (all_none board) eqn:Hb.
  - destruct (best_move_for_opening n rnd player board Hb) as (c & Hc & Hbest).
    exists c. split; [exact Hbest|].
    rewrite (all_none_new_board board Hwf Hb).
    apply list_elem_of_lookup_2 in Hc. by apply opening_cells_empty.
  - rewrite best_move_for_search by done.
    destruct (minimax_sound n board player (if player is X then true else false)
                NegInf PosInf Hwf Hn) as (s & mv & Hs & Hmv & _).
    destruct (game_over_open board Hopen) as (Ht & _).
    rewrite Ht in Hmv. destruct Hmv as (m & -> & Hm).
    exists m. unfold bind. by rewrite Hs.
Qed.

(** C9: on every board of nine cells on which the game is still open,
    [best_move_for] returns a move, the move is an index from 0 to 8 and the
    cell at that index is empty on the board given (it is one of
    [available_moves]); the board itself is unchanged by the call. *)
Theorem best_move_is_an_empty_cell (board : Board) (player : mark)
    (n rnd : nat) :
  wf_board board -> game_over board = Ok false -> empties board <= n ->
  exists mv,
    best_move_for n rnd player board = (board, Ok (Some mv)) /\
    mv < 9 /\ board !! mv = Some None /\ mv ∈ available_moves board.
Proof.
  intros Hwf Hopen Hn.
  destruct (best_move_for_available board player n rnd Hwf Hopen Hn)
    as (mv & Hbest & Hmv).
  exists mv. split; [exact Hbest|].
  pose proof Hmv as Hcell. apply available_moves_spec in Hcell.
  pose proof (lookup_lt_Some _ _ _ Hcell) as Hlt. rewrite Hwf in Hlt.
  done.
Qed.

Lemma best_move_is_an_empty_cell_witness :
  exists mv,
    best_move_for 9 0 X win_now_board = (win_now_board, Ok (Some mv)) /\
    mv < 9 /\ win_now_board !! mv = Some None /\
    mv ∈ available_moves win_now_board.
Proof.
  apply (best_move_is_an_empty_cell win_now_board X 9 0);
    [reflexivity | reflexivity | vm_compute; lia].
Defined.

(** ** The opening move *)

Lemma opening_cells_NoDup : NoDup opening_cells.
Proof.
  unfold opening_cells.
  repeat (apply NoDup_cons_2;
          [rewrite ?elem_of_cons, elem_of_nil; lia|]).
  apply NoDup_nil_2.
Qed.

Lemma opening_draw_inj (r1 r2 : nat) (c : nat) :
  r1 < 5 -> r2 < 5 ->
  opening_cells !! r1 = Some c -> opening_cells !! r2 = Some c -> r1 = r2.
Proof.
  intros H1 H2 E1 E2.
  by apply (NoDup_lookup opening_cells r1 r2 c opening_cells_NoDup).
Qed.

(** C7, as the code has it: on a board with every cell empty,
    [best_move_for] does not search (no depth budget is used) and returns
    the element of [[0, 2, 4, 6, 8]] at the index [random.choice] draws.
    These are five cells, the center and the four corners.  Whatever the
    draw, the result is one of them; each of them is the result of some
    draw; and different indices give different cells, so that a uniform
    index gives a uniform cell. *)
Theorem opening_move_is_one_of_five (board : Board) (player : mark) (n : nat) :
  all_none board = true ->
  opening_cells = [0; 2; 4; 6; 8] /\
  length opening_cells = 5 /\
  (forall rnd, exists c,
     c ∈ opening_cells /\
     best_move_for n rnd player board = (board, Ok (Some c))) /\
  (forall c, c ∈ opening_cells -> exists rnd,
     rnd < 5 /\ best_move_for n rnd player board = (board, Ok (Some c))) /\
  (forall r1 r2, r1 < 5 -> r2 < 5 ->
     best_move_for n r1 player board = best_move_for n r2 player board ->
     r1 = r2).
Proof.
  intros Hb. split; [reflexivity|]. split; [reflexivity|]. split; [|split].
  - intros rnd.
    destruct (best_move_for_opening n rnd player board Hb) as (c & Hc & Hbest).
    exists c. split; [by eapply list_elem_of_lookup_2 | exact Hbest].
  - intros c Hc. apply list_elem_of_lookup_1 in Hc as [i Hi].
    assert (Hlt : i < 5) by (by apply lookup_lt_Some in Hi).
    exists i. split; [exact Hlt|].
    destruct (best_move_for_opening n i player board Hb) as (c' & Hc' & ->).
    rewrite Nat.mod_small in Hc' by done. congruence.
  - intros r1 r2 H1 H2 E.
    destruct (best_move_for_opening n r1 player board Hb) as (c1 & Hc1 & E1).
    destruct (best_move_for_opening n r2 player board Hb) as (c2 & Hc2 & E2).
    rewrite Nat.mod_small in Hc1, Hc2 by done.
    apply (opening_draw_inj r1 r2 c1); [done|done|done|]. congruence.
Qed.

Lemma opening_move_is_one_of_five_witness :
  exists c, c ∈ opening_cells /\
            best_move_for 0 7 O new_board = (new_board, Ok (Some c)).
Proof.
  apply (opening_move_is_one_of_five new_board O 0). reflexivity.
Defined.

(** C7 as stated fails on the count: no four cells cover what
    [best_move_for] returns on the empty board. *)
Lemma no_four_cells_cover_the_openings :
  ~ exists cells : list nat,
      length cells = 4 /\
      forall rnd, exists c,
        c ∈ cells /\
        best_move_for 0 rnd X new_board = (new_board, Ok (Some c)).
Proof.
  intros (cells & Hlen & Hall).
  assert (Hsub : opening_cells ⊆+ cells).
  { apply NoDup_submseteq; [apply opening_cells_NoDup|].
    intros c Hc. apply list_elem_of_lookup_1 in Hc as [i Hi].
    assert (Hlt : i < 5) by (by apply lookup_lt_Some in Hi).
    destruct (Hall i) as (c' & Hc' & Hbest).
    destruct (best_move_for_opening 0 i X new_board eq_refl)
      as (c'' & Hc'' & E).
    rewrite Nat.mod_small in Hc'' by done. congruence. }
  apply submseteq_length in Hsub. rewrite Hlen in Hsub. simpl in Hsub. lia.
Qed.

(** ** Termination *)

(** C10: the search terminates on every list of cells, whatever it holds.
    Each recursive call is made on the board with one more cell filled,
    which has strictly fewer empty cells; so a depth budget equal to the
    number of empty cells is never exhausted, a larger budget changes
    nothing, and on a board of nine cells the depth is at most nine and a
    value is returned. *)
Theorem minimax_terminates (board : Board) (player : mark) (maximizing : bool)
    (alpha beta : ext) :
  (forall mv, mv ∈ available_moves board ->
     empties (place board mv player) < empties board) /\
  (forall n, empties board <= n ->
     (minimax n player maximizing alpha beta board).2 <> OutOfFuel /\
     minimax n player maximizing alpha beta board
     = minimax (empties board) player maximizing alpha beta board) /\
  (wf_board board ->
     empties board <= 9 /\
     exists r, minimax 9 player maximizing alpha beta board = (board, Ok r)).
Proof.
  split; [|split].
  - intros mv Hmv. apply available_moves_spec in Hmv.
    pose proof (empties_place board mv player Hmv). lia.
  - intros n Hn. split.
    + pose proof (minimax_settled n board player maximizing alpha beta Hn) as H.
      by destruct (minimax n player maximizing alpha beta board) as [? [?| |]].
    + by apply minimax_fuel.
  - intros Hwf.
    assert (Hn : empties board <= 9)
      by (rewrite <- Hwf; apply empties_le_length).
    split; [exact Hn|].
    destruct (minimax_sound 9 board player maximizing alpha beta Hwf Hn)
      as (s & mv & Hs & _).
    by exists (s, mv).
Qed.

Lemma minimax_terminates_witness :
  (minimax 9 X true NegInf PosInf new_board).2 <> OutOfFuel /\
  minimax 9 X true NegInf PosInf new_board
  = minimax (empties new_board) X true NegInf PosInf new_board.
Proof.
  apply (minimax_terminates new_board X true NegInf PosInf).
  vm_compute. lia.
Defined.

(** ** Tie-breaking *)

Lemma max_visits_dir recurse player mvs alpha beta board :
  max_visits recurse player mvs alpha beta board
  = dir_visits Up recurse player mvs alpha beta board.
Proof.
  revert alpha board.
  induction mvs as [|mv rest IH]; intros alpha board; [done|].
  cbn [max_visits dir_visits dltb]. unfold bind, ext_leb, ext_max.
  destruct (setitem mv (Some player) board) as [b1 [[]| |]]; try done.
  destruct (recurse alpha beta b1) as [b2 [r| |]]; try done.
  destruct (setitem mv None b2) as [b3 [[]| |]]; try done.
  destruct (ext_ltb alpha (Fin r.1));
    (destruct (negb _); [done | by rewrite IH]).
Qed.

Lemma min_visits_dir recurse player mvs alpha beta board :
  min_visits recurse player mvs alpha beta board
  = dir_visits Down (fun lo hi => recurse hi lo) player mvs beta alpha board.
Proof.
  revert beta board.
  induction mvs as [|mv rest IH]; intros beta board; [done|].
  cbn [min_visits dir_visits dltb]. unfold bind, ext_leb, ext_min.
  destruct (setitem mv (Some player) board) as [b1 [[]| |]]; try done.
  destruct (recurse alpha beta b1) as [b2 [r| |]]; try done.
  destruct (setitem mv None b2) as [b3 [[]| |]]; try done.
  destruct (ext_ltb (Fin r.1) beta);
    (destruct (negb _); [done | by rewrite IH]).
Qed.

Lemma first_best_up seen m s : first_best Up seen m s <-> first_greatest seen m s.
Proof.
  unfold first_best, first_greatest, dlt, dle, dltb.
  split; intros (pre & post & E & H1 & H2); exists pre, post;
    (split; [exact E|]); split; intros x Hx.
  - specialize (H1 x Hx). simpl in H1. lia.
  - specialize (H2 x Hx). simpl in H2. lia.
  - specialize (H1 x Hx). simpl. lia.
  - specialize (H2 x Hx). simpl. lia.
Qed.

Lemma first_best_down seen m s : first_best Down seen m s <-> first_least seen m s.
Proof.
  unfold first_best, first_least, dlt, dle, dltb.
  split; intros (pre & post & E & H1 & H2); exists pre, post;
    (split; [exact E|]); split; intros x Hx.
  - specialize (H1 x Hx). simpl in H1. lia.
  - specialize (H2 x Hx). simpl in H2. lia.
  - specialize (H1 x Hx). simpl. lia.
  - specialize (H2 x Hx). simpl. lia.
Qed.

(** Whatever the recursive call does: if the loop returns, its choice is
    read off the visits.  Either nothing beat the start state, or the
    chosen move is the first visit with the best score. *)
Lemma dir_loop_visits (d : dir) (recurse : ext -> ext -> M (Z * option nat))
    (player : mark) (mvs : list nat) :
  forall lo hi ev best board board' ev' best',
  dir_loop d recurse player mvs lo hi ev best board = (board', Ok (ev', best')) ->
  exists seen,
    dir_visits d recurse player mvs lo hi board = (board', Ok seen) /\
    seen.*1 `prefix_of` mvs /\
    ((ev' = ev /\ best' = best /\
      forall x, x ∈ seen -> dle d (Fin x.2) ev) \/
     (exists m s, ev' = Fin s /\ best' = Some m /\ dlt d ev (Fin s) /\
                  first_best d seen m s)).
Proof.
  induction mvs as [|mv rest IH];
    intros lo hi ev best board board' ev' best' Hloop.
  - injection Hloop as <- <- <-. exists []. split; [done|].
    split; [done|]. left. split; [done|]. split; [done|].
    intros x Hx. by apply elem_of_nil in Hx.
  - cbn [dir_loop dir_visits] in *. unfold bind in *.
    destruct (setitem mv (Some player) board) as [b1 [[]| |]]; try done.
    destruct (recurse lo hi b1) as [b2 [[s m0]| |]]; try done.
    destruct (setitem mv None b2) as [b3 [[]| |]]; try done.
    cbn [fst] in *.
    set (lo' := if dltb d lo (Fin s) then Fin s else lo) in *.
    assert (Hst : exists ev1 best1,
               (if dltb d ev (Fin s) then (Fin s, Some mv) else (ev, best))
               = (ev1, best1) /\
               ((dlt d ev (Fin s) /\ ev1 = Fin s /\ best1 = Some mv) \/
                (dle d (Fin s) ev /\ ev1 = ev /\ best1 = best))).
    { unfold dlt, dle. destruct (dltb d ev (Fin s)); eauto 10. }
    destruct Hst as (ev1 & best1 & Est & Hst). rewrite Est in Hloop.
    assert (Hs1 : dle d (Fin s) ev1 /\ dle d ev ev1).
    { destruct Hst as [(H1 & -> & _)|(H1 & -> & _)].
      - split; [apply dle_refl | by apply dlt_dle].
      - split; [exact H1 | apply dle_refl]. }
    destruct Hs1 as [Hs1 Hev1].
    destruct (negb (dltb d lo' hi)).
    + injection Hloop as <- <- <-. exists [(mv, s)]. split; [done|].
      split; [by exists rest|].
      destruct Hst as [(H1 & -> & ->)|(H1 & -> & ->)].
      * right. exists mv, s. repeat split; [done|].
        exists [], []. split; [done|].
        split; intros x Hx; by apply elem_of_nil in Hx.
      * left. repeat split.
        intros x ->%list_elem_of_singleton. exact H1.
    + destruct (IH _ _ _ _ _ _ _ _ Hloop) as (seen & Hv & Hpre & Hres).
      rewrite Hv. exists ((mv, s) :: seen). split; [done|].
      split; [by apply prefix_cons|].
      destruct Hres as [(-> & -> & Hall)|(m & s' & -> & -> & Hlt & Hfb)].
      * destruct Hst as [(H1 & -> & ->)|(H1 & -> & ->)].
        -- right. exists mv, s. repeat split; [done|].
           exists [], seen. split; [done|].
           split; [intros x Hx; by apply elem_of_nil in Hx | exact Hall].
        -- left. repeat split.
           intros x [->|Hx]%elem_of_cons; [exact H1 | by apply Hall].
      * right. exists m, s'. split; [done|]. split; [done|].
        split; [by eapply dle_dlt_trans|].
        destruct Hfb as (pre & post & -> & Hp1 & Hp2).
        exists ((mv, s) :: pre), post. split; [done|].
        split; [|exact Hp2].
        intros x [->|Hx]%elem_of_cons; [|by apply Hp1].
        by eapply dle_dlt_trans.
Qed.

(** C6: at every node of an open position on a board of nine cells, the
    loop goes through [available_moves], which is in ascending order of
    index, possibly stopping early; the move the search returns is the first
    of the moves it went through to have the greatest score among them at a
    maximizing node (the least at a minimizing node): every earlier move
    scored strictly worse, no later one scored strictly better. *)
Theorem first_best_move_is_chosen (board : Board) (player : mark)
    (maximizing : bool) (alpha beta : ext) (n : nat) :
  wf_board board -> game_over board = Ok false -> empties board <= n ->
  StronglySorted lt (available_moves board) /\
  exists seen s m,
    node_visits n player maximizing alpha beta board = (board, Ok seen) /\
    minimax n player maximizing alpha beta board = (board, Ok (s, Some m)) /\
    seen.*1 `prefix_of` available_moves board /\
    if maximizing then first_greatest seen m s else first_least seen m s.
Proof.
  intros Hwf Hopen Hn. split; [apply available_from_sorted|].
  destruct (game_over_open board Hopen) as (Ht & Hw & Hf).
  destruct (minimax_sound n board player maximizing alpha beta Hwf Hn)
    as (s & mv & Hs & Hmv & _).
  rewrite Ht in Hmv. destruct Hmv as (m & -> & Hm).
  destruct n as [|n]; [rewrite empties_zero_full in Hf; [done|lia]|].
  pose proof Hs as Hs'.
  rewrite (minimax_open _ _ _ _ _ _ Hw Hf) in Hs'. unfold bind at 1 in Hs'.
  unfold node_visits. unfold bind at 1, call at 1.
  destruct maximizing.
  - destruct (dir_loop Up _ _ _ _ _ _ _ _) as [b' [[ev' best']| |]] eqn:Hloop;
      try done.
    assert (b' = board /\ ev' = Fin s /\ best' = Some m) as (-> & -> & ->).
    { unfold bind, call, ret in Hs'. destruct ev'; by simplify_eq/=. }
    destruct (dir_loop_visits _ _ _ _ _ _ _ _ _ _ _ _ Hloop)
      as (seen & Hv & Hpre & Hres).
    exists seen, s, m. rewrite max_visits_dir.
    split; [exact Hv|]. split; [exact Hs|]. split; [exact Hpre|].
    destruct Hres as [(_ & [=] & _)|(m' & s' & [= <-] & [= <-] & _ & Hfb)].
    by apply first_best_up.
  - destruct (dir_loop Down _ _ _ _ _ _ _ _) as [b' [[ev' best']| |]] eqn:Hloop;
      try done.
    assert (b' = board /\ ev' = Fin s /\ best' = Some m) as (-> & -> & ->).
    { unfold bind, call, ret in Hs'. destruct ev'; by simplify_eq/=. }
    destruct (dir_loop_visits _ _ _ _ _ _ _ _ _ _ _ _ Hloop)
      as (seen & Hv & Hpre & Hres).
    exists seen, s, m. rewrite min_visits_dir.
    split; [exact Hv|]. split; [exact Hs|]. split; [exact Hpre|].
    destruct Hres as [(_ & [=] & _)|(m' & s' & [= <-] & [= <-] & _ & Hfb)].
    by apply first_best_down.
Qed.

Lemma first_best_move_is_chosen_witness :
  StronglySorted lt (available_moves block_now_board) /\
  exists seen s m,
    node_visits 9 X true NegInf PosInf block_now_board
    = (block_now_board, Ok seen) /\
    minimax 9 X true NegInf PosInf block_now_board
    = (block_now_board, Ok (s, Some m)) /\
    seen.*1 `prefix_of` available_moves block_now_board /\
    first_greatest seen m s.
Proof.
  apply (first_best_move_is_chosen block_now_board X true NegInf PosInf 9);
    [reflexivity | reflexivity | vm_compute; lia].
Defined.

(** ** Games against the engine *)

Lemma maximizes_opponent (p : mark) :
  maximizes (opponent p) = negb (maximizes p).
Proof. by destruct p. Qed.

Lemma search_score_value (n : nat) (p : mark) (board : Board) (s : Z) :
  wf_board board -> empties board <= n ->
  search_score n p board = Some s -> position_value board p = s.
Proof.
  intros Hwf Hn. unfold search_score, position_value.
  destruct (minimax_sound n board p (maximizes p) NegInf PosInf Hwf Hn)
    as (s' & mv & -> & _ & Hfs).
  intros [= <-]. destruct (Hfs eq_refl) as [(_ & _ & Hex) _].
  symmetry. by apply Hex.
Qed.

Lemma opening_keeps_value (p : mark) (c : nat) :
  c ∈ opening_cells ->
  position_value (place new_board c p) (opponent p)
  = position_value new_board p.
Proof.
  intros Hc. unfold opening_cells in Hc.
  rewrite (search_score_value 9 p new_board 0%Z);
    [|done|vm_compute; lia|by destruct p; vm_compute].
  repeat (apply elem_of_cons in Hc as [->|Hc]);
    try (apply (search_score_value 9);
         [done|vm_compute; lia|by destruct p; vm_compute]).
  by apply elem_of_nil in Hc.
Qed.

(** The move [best_move_for] returns on an open position leads to a
    position of the same value. *)
Lemma engine_move_keeps_value (board : Board) (p : mark) (rnd mv : nat) :
  wf_board board -> game_over board = Ok false ->
  best_move_for 9 rnd p board = (board, Ok (Some mv)) ->
  mv ∈ available_moves board /\
  position_value (place board mv p) (opponent p) = position_value board p.
Proof.
  intros Hwf Hopen Hbest.
  assert (Hn : empties board <= 9)
    by (rewrite <- Hwf; apply empties_le_length).
  destruct (all_none board) eqn:Hb.
  - destruct (best_move_for_opening 9 rnd p board Hb) as (c & Hc & Hbest').
    rewrite Hbest' in Hbest. injection Hbest as <-.
    apply list_elem_of_lookup_2 in Hc.
    rewrite (all_none_new_board board Hwf Hb).
    split; [by apply opening_cells_empty | by apply opening_keeps_value].
  - rewrite best_move_for_search in Hbest by done.
    destruct (minimax_sound 9 board p (maximizes p) NegInf PosInf Hwf Hn)
      as (s & mv' & Hs & Hmv & Hfs).
    change (if p is X then true else false) with (maximizes p) in Hbest.
    unfold bind in Hbest. rewrite Hs in Hbest. injection Hbest as ->.
    destruct (game_over_open board Hopen) as (Ht & _).
    rewrite Ht in Hmv. destruct Hmv as (m & [= <-] & Hm).
    split; [exact Hm|].
    destruct (Hfs eq_refl) as [(_ & _ & Hex) Hbest].
    unfold position_value. rewrite maximizes_opponent.
    rewrite (Hbest eq_refl eq_refl mv eq_refl). by apply Hex.
Qed.

(** Any move at all leads to a position that is no better for the mover. *)
Lemma any_move_bounds_value (board : Board) (p : mark) (mv : nat) :
  wf_board board -> game_over board = Ok false ->
  mv ∈ available_moves board ->
  match p with
  | X => (position_value (place board mv p) (opponent p)
          <= position_value board p)%Z
  | O => (position_value board p
          <= position_value (place board mv p) (opponent p))%Z
  end.
Proof.
  intros Hwf Hopen Hmv.
  destruct (game_over_open board Hopen) as (Ht & _).
  destruct (game_value_open board p (maximizes p) Hwf Ht) as [_ Hub].
  specialize (Hub mv Hmv). unfold position_value.
  rewrite maximizes_opponent.
  destruct p; unfold dle, dltb in Hub; simpl in Hub;
    apply Z.ltb_ge in Hub; exact Hub.
Qed.

Lemma terminal_score_winner (board : Board) (z : Z) :
  terminal_score board = Some z ->
  (z = 1%Z /\ check_winner board = Ok (Some X)) \/
  (z = (-1)%Z /\ check_winner board = Ok (Some O)) \/
  (z = 0%Z /\ check_winner board = Ok None /\ is_board_full board = true).
Proof.
  unfold terminal_score.
  destruct (check_winner board) as [[[|]|]| |]; try done.
  - intros [= <-]. by left.
  - intros [= <-]. right. by left.
  - destruct (is_board_full board); [|done]. intros [= <-]. right. by right.
Qed.

(** Along a game the engine's side never gives value away: the final score
    is no worse for a mark the engine plays than the value of the position
    the game started from. *)
Lemma plays_value (engine : mark -> bool) (board : Board) (p : mark)
    (final : Board) :
  plays engine board p final -> wf_board board ->
  wf_board final /\ game_over final = Ok true /\
  exists z, terminal_score final = Some z /\
    (engine X = true -> (position_value board p <= z)%Z) /\
    (engine O = true -> (z <= position_value board p)%Z).
Proof.
  induction 1 as [board p Hover
                 |board p rnd mv final Hopen He Hbest _ IH
                 |board p mv final Hopen He Hmv _ IH]; intros Hwf.
  - split; [done|]. split; [done|].
    destruct (game_over_terminal board Hover) as (z & Ht & _).
    exists z. split; [done|]. unfold position_value.
    rewrite (game_value_terminal _ _ _ z Ht). lia.
  - destruct (engine_move_keeps_value board p rnd mv Hwf Hopen Hbest)
      as [_ Heq].
    destruct (IH (wf_place _ _ _ Hwf)) as (Hwf' & Hover & z & Ht & HX & HO).
    split; [done|]. split; [done|]. exists z. split; [done|].
    rewrite <- Heq. done.
  - pose proof (any_move_bounds_value board p mv Hwf Hopen Hmv) as Hb.
    destruct (IH (wf_place _ _ _ Hwf)) as (Hwf' & Hover & z & Ht & HX & HO).
    split; [done|]. split; [done|]. exists z. split; [done|].
    split; intros Hen.
    + destruct p; [congruence|]. specialize (HX Hen). lia.
    + destruct p; [|congruence]. specialize (HO Hen). lia.
Qed.

Lemma new_board_value : position_value new_board X = 0%Z.
Proof.
  apply (search_score_value 9); [done | vm_compute; lia | by vm_compute].
Qed.

Lemma game_over_total (board : Board) :
  wf_board board -> exists b, game_over board = Ok b.
Proof.
  intros Hwf. unfold game_over.
  destruct (check_winner_total board Hwf) as [w ->]. simpl. eauto.
Qed.

(** Every game comes to an end, whoever plays which mark. *)
Lemma plays_total (engine : mark -> bool) (n : nat) :
  forall (board : Board) (p : mark),
  wf_board board -> empties board <= n ->
  exists final, plays engine board p final.
Proof.
  induction n as [|n IH]; intros board p Hwf Hn;
    (destruct (game_over_total board Hwf) as [[|] Hover];
     [exists board; by apply plays_over|]);
    destruct (game_over_open board Hover) as (_ & _ & Hf).
  - rewrite empties_zero_full in Hf; [done|lia].
  - assert (Hstep : forall mv, mv ∈ available_moves board ->
              exists final, plays engine (place board mv p) (opponent p) final).
    { intros mv Hmv. apply available_moves_spec in Hmv.
      pose proof (empties_place board mv p Hmv).
      apply IH; [by apply wf_place | lia]. }
    destruct (engine p) eqn:He.
    + destruct (best_move_for_available board p 9 0 Hwf Hover)
        as (mv & Hbest & Hmv).
      { rewrite <- Hwf. apply empties_le_length. }
      destruct (Hstep mv Hmv) as [final Hfinal].
      exists final. by eapply plays_engine.
    + destruct (is_board_full_false board Hf) as [mv Hmv].
      destruct (Hstep mv Hmv) as [final Hfinal].
      exists final. by eapply plays_other.
Qed.

(** C1: the move [best_move_for] returns on an open position of a board of
    nine cells keeps the game-theoretic value of the position for the mark
    it searches for.  Hence, in the turn loop of [play_game]: against any
    moves of the other side the final score is no worse for the engine's
    mark than the value of the position the game is in; from the empty
    board, where X moves first, the engine loses neither as X nor as O; from
    a position whose value is a win for its mark it wins; and when it plays
    both marks from the empty board the game is a draw.  Games always end. *)
Theorem engine_keeps_the_value :
  (forall board p rnd,
     wf_board board -> game_over board = Ok false ->
     exists mv,
       best_move_for 9 rnd p board = (board, Ok (Some mv)) /\
       mv ∈ available_moves board /\
       position_value (place board mv p) (opponent p)
       = position_value board p) /\
  (forall engine board p final,
     wf_board board -> plays engine board p final ->
     exists z, terminal_score final = Some z /\
       (engine X = true -> (position_value board p <= z)%Z) /\
       (engine O = true -> (z <= position_value board p)%Z)) /\
  (forall e final,
     plays (only e) new_board X final ->
     check_winner final <> Ok (Some (opponent e))) /\
  (forall e board p final,
     wf_board board -> plays (only e) board p final ->
     position_value board p = win_score e ->
     check_winner final = Ok (Some e)) /\
  (forall final,
     plays both new_board X final ->
     check_winner final = Ok None /\ is_board_full final = true) /\
  (forall engine board p,
     wf_board board -> exists final, plays engine board p final).
Proof.
  split; [|split; [|split; [|split; [|split]]]].
  - intros board p rnd Hwf Hopen.
    destruct (best_move_for_available board p 9 rnd Hwf Hopen)
      as (mv & Hbest & Hmv).
    { rewrite <- Hwf. apply empties_le_length. }
    exists mv. split; [exact Hbest|]. split; [exact Hmv|].
    by apply (engine_move_keeps_value board p rnd mv).
  - intros engine board p final Hwf Hplay.
    by destruct (plays_value engine board p final Hplay Hwf) as (_ & _ & H).
  - intros e final Hplay.
    destruct (plays_value _ _ _ _ Hplay eq_refl)
      as (_ & _ & z & Ht & HX & HO).
    rewrite new_board_value in HX, HO.
    destruct (terminal_score_winner final z Ht)
      as [(-> & ->)|[(-> & ->)|(-> & -> & _)]]; destruct e; simpl; try done.
    + specialize (HO eq_refl). lia.
    + specialize (HX eq_refl). lia.
  - intros e board p final Hwf Hplay Hwin.
    destruct (plays_value _ _ _ _ Hplay Hwf) as (_ & _ & z & Ht & HX & HO).
    rewrite Hwin in HX, HO.
    destruct (terminal_score_winner final z Ht)
      as [(-> & ->)|[(-> & ->)|(-> & -> & _)]]; destruct e; simpl in *;
      try done.
    all: try (specialize (HX eq_refl); lia).
    all: try (specialize (HO eq_refl); lia).
  - intros final Hplay.
    destruct (plays_value _ _ _ _ Hplay eq_refl)
      as (_ & _ & z & Ht & HX & HO).
    rewrite new_board_value in HX, HO.
    specialize (HX eq_refl). specialize (HO eq_refl).
    destruct (terminal_score_winner final z Ht)
      as [(-> & _)|[(-> & _)|(_ & Hw & Hf)]]; [lia | lia | done].
  - intros engine board p Hwf.
    apply (plays_total engine 9); [done|].
    rewrite <- Hwf. apply empties_le_length.
Qed.

Lemma engine_keeps_the_value_witness :
  check_winner (place win_now_board 2 X) = Ok (Some X).
Proof.
  apply (proj1 (proj2 (proj2 (proj2 engine_keeps_the_value)))
           X win_now_board X (place win_now_board 2 X)).
  - reflexivity.
  - apply (plays_engine (only X) win_now_board X 0 2);
      [reflexivity | reflexivity | vm_compute; reflexivity |].
    apply plays_over. reflexivity.
  - vm_compute. reflexivity.
Defined.

(** * Further properties of the search *)

(** ** Range of the score *)

Lemma dir_loop_score (P : Z -> Prop) (d : dir)
    (recurse : ext -> ext -> M (Z * option nat)) (player : mark)
    (mvs : list nat) :
  (forall lo hi board board' r,
     recurse lo hi board = (board', Ok r) -> P r.1) ->
  forall lo hi ev best board board' ev' best',
  dir_loop d recurse player mvs lo hi ev best board
  = (board', Ok (ev', best')) ->
  ev' = ev \/ exists s, ev' = Fin s /\ P s.
Proof.
  intros Hrec.
  induction mvs as [|mv rest IH];
    intros lo hi ev best board board' ev' best' Hloop.
  - injection Hloop as <- <- <-. by left.
  - cbn [dir_loop] in Hloop. unfold bind in Hloop.
    destruct (setitem mv (Some player) board) as [b1 [[]| |]]; try done.
    destruct (recurse lo hi b1) as [b2 [r| |]] eqn:Hr; try done.
    apply Hrec in Hr.
    destruct (setitem mv None b2) as [b3 [[]| |]]; try done.
    destruct (dltb d ev (Fin r.1)) eqn:Himp;
      (destruct (negb _);
       [injection Hloop as <- <- <-
       |apply IH in Hloop as [->|(s & -> & Hs)]]); eauto.
Qed.

Lemma minimax_score_range (n : nat) :
  forall player maximizing alpha beta board board' s mv,
  minimax n player maximizing alpha beta board = (board', Ok (s, mv)) ->
  (-1 <= s <= 1)%Z.
Proof.
  induction n as [|n IH];
    intros player maximizing alpha beta board board' s mv Hs;
    (destruct (terminal_score board) as [z|] eqn:Ht;
     [rewrite (minimax_terminal _ _ _ _ _ _ z Ht) in Hs;
      injection Hs as <- <- <-;
      destruct (terminal_score_winner board z Ht)
        as [(-> & _)|[(-> & _)|(-> & _)]]; lia|]);
    (destruct (check_winner board) as [[m|]|e|] eqn:Hw;
     [unfold terminal_score in Ht; rewrite Hw in Ht; by destruct m
     | | by rewrite (minimax_raise _ _ _ _ _ _ e) in Hs
     | by destruct (check_lines_fuel WIN_LINES board)]);
    (assert (Hf : is_board_full board = false)
       by (unfold terminal_score in Ht; rewrite Hw in Ht;
           by destruct (is_board_full board))).
  - exfalso. simpl in Hs. unfold bind, call in Hs. rewrite Hw, Hf in Hs.
    destruct (is_board_full_false board Hf) as [mv0 Hmv0].
    destruct (available_moves board) as [|m0 rest];
      [by apply elem_of_nil in Hmv0|].
    destruct maximizing; simpl in Hs; unfold bind, out_of_fuel in Hs;
      by destruct (setitem m0 (Some player) board) as [b1 [[]| |]].
  - rewrite (minimax_open _ _ _ _ _ _ Hw Hf) in Hs. unfold bind at 1 in Hs.
    destruct maximizing.
    + destruct (dir_loop Up _ _ _ _ _ _ _ _) as [b' [[ev' best']| |]] eqn:Hloop;
        try done.
      apply (dir_loop_score (fun s => (-1 <= s <= 1)%Z)) in Hloop
        as [->|(s' & -> & Hs')].
      * done.
      * unfold bind, call, ret in Hs. by simplify_eq/=.
      * intros lo hi bd bd' [s' m'] Hr. by apply IH in Hr.
    + destruct (dir_loop Down _ _ _ _ _ _ _ _) as [b' [[ev' best']| |]] eqn:Hloop;
        try done.
      apply (dir_loop_score (fun s => (-1 <= s <= 1)%Z)) in Hloop
        as [->|(s' & -> & Hs')].
      * done.
      * unfold bind, call, ret in Hs. by simplify_eq/=.
      * intros lo hi bd bd' [s' m'] Hr. by apply IH in Hr.
Qed.

(** X1: whatever the window, the mark and the mode, the score the search
    returns on a board of nine cells is -1, 0 or +1. *)
Theorem minimax_score_is_a_result (board : Board) (player : mark)
    (maximizing : bool) (alpha beta : ext) (n : nat) :
  wf_board board -> empties board <= n ->
  exists s mv,
    minimax n player maximizing alpha beta board = (board, Ok (s, mv)) /\
    (s = -1 \/ s = 0 \/ s = 1)%Z.
Proof.
  intros Hwf Hn.
  destruct (minimax_sound n board player maximizing alpha beta Hwf Hn)
    as (s & mv & Hs & _).
  exists s, mv. split; [exact Hs|].
  apply minimax_score_range in Hs. lia.
Qed.

Lemma minimax_score_is_a_result_witness :
  exists s mv,
    minimax 9 O false (Fin 5) (Fin (-5)) new_board = (new_board, Ok (s, mv)) /\
    (s = -1 \/ s = 0 \/ s = 1)%Z.
Proof.
  apply (minimax_score_is_a_result new_board O false (Fin 5) (Fin (-5)) 9);
    [reflexivity | vm_compute; lia].
Defined.

(** ** The full-window search and the reference search choose alike *)

Lemma dlt_top (d : dir) (ev : ext) : ev <> top d -> dlt d ev (top d).
Proof. destruct d; ext_auto. Qed.

Lemma better_dlt (d : dir) (s s0 : Z) :
  better d s s0 = true <-> dlt d (Fin s0) (Fin s).
Proof.
  destruct d; unfold dlt, dltb, better; simpl.
  - rewrite Z.gtb_ltb. done.
  - done.
Qed.

Lemma better_dle (d : dir) (s s0 : Z) :
  better d s s0 = false <-> dle d (Fin s) (Fin s0).
Proof.
  destruct d; unfold dle, dltb, better; simpl.
  - rewrite Z.gtb_ltb. done.
  - done.
Qed.

Lemma first_best_all (d : dir) (l : list (nat * Z)) (m : nat) (s : Z) :
  first_best d l m s -> forall x, x ∈ l -> dle d (Fin x.2) (Fin s).
Proof.
  intros (pre & post & -> & H1 & H2) x Hx.
  apply elem_of_app in Hx as [Hx|Hx]; [by apply dlt_dle, H1|].
  apply elem_of_cons in Hx as [->|Hx]; [apply dle_refl | by apply H2].
Qed.

(** [strict_best] keeps the first of the best entries. *)
Lemma strict_best_first (d : dir) (l done : list (nat * Z)) (s0 : Z) (m0 : nat) :
  first_best d done m0 s0 ->
  first_best d (done ++ l) (strict_best (better d) l (s0, m0)).2
                           (strict_best (better d) l (s0, m0)).1.
Proof.
  revert done s0 m0.
  induction l as [|[mv s] rest IH]; intros done s0 m0 Hfb; simpl.
  - by rewrite app_nil_r.
  - replace (done ++ (mv, s) :: rest) with ((done ++ [(mv, s)]) ++ rest)
      by (by rewrite <- app_assoc).
    destruct (better d s s0) eqn:Hb; apply IH.
    + apply better_dlt in Hb.
      exists done, []. split; [done|]. split.
      * intros x Hx. eapply dle_dlt_trans; [|exact Hb].
        by eapply first_best_all.
      * intros x Hx. by apply elem_of_nil in Hx.
    + apply better_dle in Hb.
      destruct Hfb as (pre & post & -> & H1 & H2).
      exists pre, (post ++ [(mv, s)]). split; [by rewrite <- app_assoc|].
      split; [exact H1|].
      intros x [Hx| ->%list_elem_of_singleton]%elem_of_app;
        [by apply H2 | exact Hb].
Qed.

Lemma first_best_unique (d : dir) (l : list (nat * Z)) (m m' : nat) (s s' : Z) :
  first_best d l m s -> first_best d l m' s' -> m = m' /\ s = s'.
Proof.
  intros (pre & post & -> & H1 & H2) (pre' & post' & E & H1' & H2').
  apply app_eq_app in E as [k [[-> E]|[-> E]]]; destruct k as [|x k];
    simplify_eq/=.
  - done.
  - exfalso. eapply (dlt_not_dle d); [apply (H1 (m', s'))|].
    + apply elem_of_app. right. left.
    + apply (H2' (m, s)). apply elem_of_app. right. left.
  - done.
  - exfalso. eapply (dlt_not_dle d); [apply (H1' (m, s))|].
    + apply elem_of_app. right. left.
    + apply (H2 (m', s')). apply elem_of_app. right. left.
Qed.

(** The loop of the root, where the window is [(ev, top)] throughout: no
    cut-off happens, and the choice is the first of the best children by
    their true values. *)
Lemma root_loop (d : dir) (recurse : ext -> ext -> M (Z * option nat))
    (player : mark) (board : Board) (V : nat -> Z) (mvs : list nat) :
  (forall mv, mv ∈ mvs -> board !! mv = Some None) ->
  (forall mv, mv ∈ mvs ->
     child_ok d recurse (place board mv player) (V mv)) ->
  forall ev best, ev <> top d ->
  exists ev' best',
    dir_loop d recurse player mvs ev (top d) ev best board
    = (board, Ok (ev', best')) /\
    ((ev' = ev /\ best' = best /\
      forall mv, mv ∈ mvs -> dle d (Fin (V mv)) ev) \/
     (exists m s, ev' = Fin s /\ best' = Some m /\ dlt d ev (Fin s) /\
                  first_best d (map (fun mv => (mv, V mv)) mvs) m s)).
Proof.
  induction mvs as [|mv rest IH]; intros Hav Hrec ev best Hev.
  - exists ev, best. split; [done|]. left. split; [done|]. split; [done|].
    intros mv Hmv. by apply elem_of_nil in Hmv.
  - destruct (Hrec mv ltac:(left) ev (top d)) as (s & m0 & Hr & Hfs).
    destruct (Hfs (dlt_top d ev Hev)) as (Hf1 & _ & Hf3).
    rewrite (dir_loop_step _ _ _ _ _ _ _ _ _ _ _ _ (Hav mv ltac:(left)) Hr).
    cbv zeta.
    assert (Hrest : forall ev1 best1, ev1 <> top d ->
              exists ev' best',
                dir_loop d recurse player rest ev1 (top d) ev1 best1 board
                = (board, Ok (ev', best')) /\
                ((ev' = ev1 /\ best' = best1 /\
                  forall mv, mv ∈ rest -> dle d (Fin (V mv)) ev1) \/
                 (exists m s, ev' = Fin s /\ best' = Some m /\
                    dlt d ev1 (Fin s) /\
                    first_best d (map (fun mv => (mv, V mv)) rest) m s))).
    { apply IH; intros x Hx; [apply Hav | apply Hrec]; by right. }
    destruct (dltb d ev (Fin s)) eqn:Himp; simpl.
    + (* the child improves on the running best: its score is exact *)
      assert (Hnt : Fin s <> top d) by (by destruct d).
      rewrite (dlt_top d _ Hnt). simpl.
      pose proof (Hf3 Himp (dlt_top d _ Hnt)) as Hv.
      destruct (Hrest (Fin s) (Some mv) Hnt)
        as (ev' & best' & Hloop & Hres).
      exists ev', best'. split; [exact Hloop|]. right.
      destruct Hres as [(-> & -> & Hall)|(m & s' & -> & -> & Hlt & Hfb)].
      * exists mv, s. split; [done|]. split; [done|]. split; [exact Himp|].
        exists [], (map (fun mv => (mv, V mv)) rest).
        split; [by rewrite Hv|]. split.
        -- intros x Hx. by apply elem_of_nil in Hx.
        -- intros x (y & -> & Hy)%list_elem_of_fmap. by apply Hall.
      * exists m, s'. split; [done|]. split; [done|].
        split; [by eapply dlt_dle_trans; [exact Himp | apply dlt_dle]|].
        destruct Hfb as (pre & post & E & H1 & H2).
        exists ((mv, V mv) :: pre), post. simpl. rewrite E.
        split; [done|]. split; [|exact H2].
        intros x [->|Hx]%elem_of_cons; [|by apply H1].
        simpl. by rewrite <- Hv.
    + (* the child does not improve: its score bounds its value *)
      change (dle d (Fin s) ev) in Himp.
      rewrite (dlt_top d _ Hev). simpl.
      pose proof (Hf1 Himp) as Hv.
      destruct (Hrest ev best Hev) as (ev' & best' & Hloop & Hres).
      exists ev', best'. split; [exact Hloop|].
      destruct Hres as [(-> & -> & Hall)|(m & s' & -> & -> & Hlt & Hfb)].
      * left. split; [done|]. split; [done|].
        intros x [->|Hx]%elem_of_cons; [|by apply Hall].
        by eapply dle_trans.
      * right. exists m, s'. split; [done|]. split; [done|].
        split; [exact Hlt|].
        destruct Hfb as (pre & post & E & H1 & H2).
        exists ((mv, V mv) :: pre), post. simpl. rewrite E.
        split; [done|]. split; [|exact H2].
        intros x [->|Hx]%elem_of_cons; [|by apply H1].
        simpl. eapply dle_dlt_trans; [|exact Hlt]. by eapply dle_trans.
Qed.

(** X2: with the full window, pruning changes nothing at all: on every
    board of nine cells the pruned search returns the very pair (score,
    move) that the search without pruning returns, ties included. *)
Theorem full_window_search_is_reference_search (board : Board) (player : mark)
    (maximizing : bool) (n : nat) :
  wf_board board -> empties board <= n ->
  exists r,
    minimax n player maximizing NegInf PosInf board = (board, Ok r) /\
    minimax_unpruned n board player maximizing = Ok r.
Proof.
  intros Hwf Hn.
  destruct (terminal_score board) as [z|] eqn:Ht.
  { exists (z, None).
    split; [by apply minimax_terminal | by apply minimax_unpruned_terminal]. }
  apply terminal_score_open in Ht as [Hw Hf]; [|done].
  destruct n as [|n]; [rewrite empties_zero_full in Hf; [done|lia]|].
  set (V := fun mv => game_value (place board mv player) (opponent player)
                        (negb maximizing)).
  pose proof (fun mv => proj1 (available_moves_spec board mv)) as Hav.
  assert (Hlt : forall mv, mv ∈ available_moves board ->
            empties (place board mv player) <= n).
  { intros mv Hmv. apply Hav in Hmv.
    pose proof (empties_place board mv player Hmv). lia. }
  (* the reference search *)
  assert (Href : exists bm bs,
             minimax_unpruned (S n) board player maximizing = Ok (bs, Some bm) /\
             first_best (dir_of maximizing)
               (map (fun mv => (mv, V mv)) (available_moves board)) bm bs).
  { simpl. rewrite Hw. simpl. rewrite Hf.
    rewrite (child_scores_ok _ V).
    2:{ intros mv Hmv.
        destruct (minimax_unpruned_value n (place board mv player)
                    (opponent player) (negb maximizing)) as (m & Hs);
          [by apply wf_place | by apply Hlt |].
        by rewrite Hs. }
    simpl.
    replace (if maximizing then Z.gtb else Z.ltb)
      with (better (dir_of maximizing)) by (by destruct maximizing).
    destruct (is_board_full_false board Hf) as [mv0 Hmv0].
    destruct (available_moves board) as [|m0 rest];
      [by apply elem_of_nil in Hmv0|]. simpl.
    pose proof (strict_best_first (dir_of maximizing)
                  (map (fun mv => (mv, V mv)) rest) [(m0, V m0)] (V m0) m0)
      as Hfb.
    destruct (strict_best _ _ _) as [bs bm]. exists bm, bs.
    split; [done|]. apply Hfb.
    exists [], []. split; [done|].
    split; intros x Hx; by apply elem_of_nil in Hx. }
  destruct Href as (bm & bs & Href & Hfb).
  exists (bs, Some bm). split; [|exact Href].
  (* the pruned search *)
  assert (Hchild : forall mv a b, mv ∈ available_moves board ->
            exists s m,
              minimax n (opponent player) (negb maximizing) a b
                      (place board mv player)
              = (place board mv player, Ok (s, m)) /\
              (elt a b -> fail_soft a b (V mv) s)).
  { intros mv a b Hmv.
    destruct (minimax_sound n (place board mv player) (opponent player)
                (negb maximizing) a b) as (s & m & Hs & _ & Hfs);
      [apply wf_place, Hwf | by apply Hlt |].
    exists s, m. split; [exact Hs|]. intros Hab. by apply Hfs. }
  assert (Hne : exists mv0, mv0 ∈ available_moves board)
    by (by apply is_board_full_false).
  destruct Hne as [mv0 Hmv0].
  rewrite (minimax_open _ _ _ _ _ _ Hw Hf). unfold bind at 1.
  destruct maximizing; simpl negb in *; simpl dir_of in *.
  - destruct (root_loop Up (minimax n (opponent player) false) player board V
                (available_moves board) Hav) with (ev := NegInf) (best := @None nat)
      as (ev' & best' & Hloop & Hres); [|done|].
    { intros mv Hmv lo hi.
      destruct (Hchild mv lo hi Hmv) as (s & m & Hs & Hfs).
      exists s, m. split; [exact Hs|]. intros Hlohi.
      by apply fail_soft_up, Hfs. }
    simpl top in Hloop. rewrite Hloop.
    destruct Hres as [(_ & _ & Hall)|(m & s & -> & -> & _ & Hfb')].
    { by specialize (Hall mv0 Hmv0). }
    destruct (first_best_unique Up _ _ _ _ _ Hfb Hfb') as [-> ->]. done.
  - destruct (root_loop Down
                (fun lo hi => minimax n (opponent player) true hi lo)
                player board V (available_moves board) Hav)
        with (ev := PosInf) (best := @None nat)
      as (ev' & best' & Hloop & Hres); [|done|].
    { intros mv Hmv lo hi.
      destruct (Hchild mv hi lo Hmv) as (s & m & Hs & Hfs).
      exists s, m. split; [exact Hs|]. intros Hlohi.
      by apply fail_soft_down, Hfs. }
    simpl top in Hloop. rewrite Hloop.
    destruct Hres as [(_ & _ & Hall)|(m & s & -> & -> & _ & Hfb')].
    { by specialize (Hall mv0 Hmv0). }
    destruct (first_best_unique Down _ _ _ _ _ Hfb Hfb') as [-> ->]. done.
Qed.

Lemma full_window_search_is_reference_search_witness :
  exists r,
    minimax 9 O false NegInf PosInf block_now_board = (block_now_board, Ok r) /\
    minimax_unpruned 9 block_now_board O false = Ok r.
Proof.
  apply (full_window_search_is_reference_search block_now_board O false 9);
    [reflexivity | vm_compute; lia].
Defined.

(** * Further properties of the board model *)

(** X3: on any list of cells, [available_moves] lists exactly the indices
    of the cells that are [None], in strictly ascending order and so each
    once; their number and the number of marks add up to the number of
    cells. *)
Theorem available_moves_are_the_empty_cells (board : Board) :
  (forall mv, mv ∈ available_moves board <-> board !! mv = Some None) /\
  StronglySorted lt (available_moves board) /\
  NoDup (available_moves board) /\
  length (available_moves board)
  + length (filter (fun c : option mark => is_Some c) board)
  = length board.
Proof.
  split; [apply available_moves_spec|].
  split; [apply available_from_sorted|]. split.
  - unfold available_moves. generalize 0.
    induction board as [|[m|] rest IH]; intros i; simpl;
      [apply NoDup_nil_2 | apply IH |].
    apply NoDup_cons_2; [|apply IH].
    intros Hi. apply available_from_lb in Hi. lia.
  - unfold available_moves. generalize 0.
    induction board as [|[m|] rest IH]; intros i; [done| |].
    + rewrite filter_cons_True by done. simpl. rewrite <- (IH (S i)). lia.
    + rewrite filter_cons_False by (by intros [? ?]). simpl.
      by rewrite <- (IH (S i)).
Qed.

(** X4: a board of nine cells is finished, in the sense of [game_over],
    exactly when [check_winner] reports a mark or no move is available; on a
    board that is not finished [check_winner] reports no mark and some cell
    is empty.  [is_board_full] holds exactly when [available_moves] is
    empty. *)
Theorem game_over_means_winner_or_no_move (board : Board) :
  wf_board board ->
  (is_board_full board = true <-> available_moves board = []) /\
  (game_over board = Ok true <->
   (exists m, check_winner board = Ok (Some m)) \/ available_moves board = []) /\
  (game_over board = Ok false <->
   check_winner board = Ok None /\ exists mv, mv ∈ available_moves board).
Proof.
  intros Hwf. split; [apply is_board_full_available|].
  unfold game_over. destruct (check_winner_total board Hwf) as [w ->]. simpl.
  destruct w as [m|].
  - split.
    + split; [intros _; left; by exists m | done].
    + split; [done | by intros [[=] _]].
  - destruct (is_board_full board) eqn:Hf.
    + pose proof (proj1 (is_board_full_available board) Hf) as Hno. split.
      * split; [intros _; by right | done].
      * split; [done | intros [_ [mv Hmv]]].
        rewrite Hno in Hmv. by apply elem_of_nil in Hmv.
    + split.
      * split; [done | intros [[m [=]]|Hno]].
        apply is_board_full_available in Hno. congruence.
      * split; [intros _ | done].
        split; [done | by apply is_board_full_false].
Qed.

Lemma game_over_means_winner_or_no_move_witness :
  game_over drawn_board = Ok true <->
  (exists m, check_winner drawn_board = Ok (Some m)) \/
  available_moves drawn_board = [].
Proof.
  apply (game_over_means_winner_or_no_move drawn_board). reflexivity.
Defined.

(** * The printed board *)

Lemma cell_text_glyph (board : Board) (i : nat) (c : option mark) :
  i < 9 -> board !! i = Some c ->
  cell_text board i = Ok (String (cell_glyph c i) "").
Proof.
  intros Hi Hc. unfold cell_text, getitem. rewrite Hc. simpl.
  destruct c as [[|]|]; [done|done|].
  do 9 (destruct i as [|i]; [reflexivity|]). lia.
Qed.

Lemma cell_glyph_inj (c c' : option mark) (i : nat) :
  i < 9 -> cell_glyph c i = cell_glyph c' i -> c = c'.
Proof.
  intros Hi.
  do 9 (destruct i as [|i];
        [by destruct c as [[|]|], c' as [[|]|]|]). lia.
Qed.

Lemma pretty_board_cells (c0 c1 c2 c3 c4 c5 c6 c7 c8 : option mark) :
  exists text,
    pretty_board [c0; c1; c2; c3; c4; c5; c6; c7; c8] = Ok text /\
    String.length text = 59 /\
    forall i c, [c0; c1; c2; c3; c4; c5; c6; c7; c8] !! i = Some c ->
      String.get (cell_offset i) text = Some (cell_glyph c i).
Proof.
  set (board := [c0; c1; c2; c3; c4; c5; c6; c7; c8]).
  unfold pretty_board, for_each, row_text. cbn [Nat.mul Nat.add].
  rewrite (cell_text_glyph board 0 c0), (cell_text_glyph board 1 c1),
    (cell_text_glyph board 2 c2), (cell_text_glyph board 3 c3),
    (cell_text_glyph board 4 c4), (cell_text_glyph board 5 c5),
    (cell_text_glyph board 6 c6), (cell_text_glyph board 7 c7),
    (cell_text_glyph board 8 c8) by (done || lia).
  eexists. split; [reflexivity|]. split; [reflexivity|].
  intros i c Hc.
  do 9 (destruct i as [|i]; [injection Hc as <-; reflexivity|]).
  done.
Qed.

(** X5: the text [pretty_board] makes of a board of nine cells has 59
    characters and shows cell [i] (row [i / 3], column [i mod 3]) at a fixed
    place, as [X], as [O], or, when the cell is empty, as the digit [i + 1],
    the number a player types for that cell.  So the text determines the
    board: two boards printed alike are the same board. *)
Theorem pretty_board_shows_every_cell (board : Board) :
  wf_board board ->
  (exists text,
     pretty_board board = Ok text /\
     String.length text = 59 /\
     forall i c, board !! i = Some c ->
       String.get (cell_offset i) text = Some (cell_glyph c i)) /\
  (forall board', wf_board board' ->
     pretty_board board' = pretty_board board -> board' = board).
Proof.
  intros Hwf.
  assert (Hcells : forall b : Board, wf_board b ->
            exists text,
              pretty_board b = Ok text /\
              String.length text = 59 /\
              forall i c, b !! i = Some c ->
                String.get (cell_offset i) text = Some (cell_glyph c i)).
  { intros b Hb. unfold wf_board in Hb.
    do 9 (destruct b as [|? b]; [done|]). destruct b; [|done].
    apply pretty_board_cells. }
  split; [by apply Hcells|].
  intros board' Hwf' Heq.
  destruct (Hcells board Hwf) as (text & Ht & _ & Hshow).
  destruct (Hcells board' Hwf') as (text' & Ht' & _ & Hshow').
  assert (text' = text) as -> by congruence.
  apply list_eq. intros i.
  destruct (board !! i) as [c|] eqn:Hc.
  - pose proof (lookup_lt_Some _ _ _ Hc) as Hi. rewrite Hwf in Hi.
    destruct (lookup_lt_is_Some_2 board' i) as [c' Hc']; [by rewrite Hwf'|].
    rewrite Hc'. f_equal. apply (cell_glyph_inj c' c i Hi).
    specialize (Hshow i c Hc). specialize (Hshow' i c' Hc'). congruence.
  - apply lookup_ge_None in Hc. apply lookup_ge_None.
    rewrite Hwf'. by rewrite Hwf in Hc.
Qed.

Lemma pretty_board_shows_every_cell_witness :
  exists text,
    pretty_board win_now_board = Ok text /\
    String.length text = 59 /\
    forall i c, win_now_board !! i = Some c ->
      String.get (cell_offset i) text = Some (cell_glyph c i).
Proof.
  apply (pretty_board_shows_every_cell win_now_board). reflexivity.
Defined.

(** * The console programs *)

Section ConsoleFacts.
Variable py_strip : string -> string.
Variable py_upper : string -> string.
Variable py_lower : string -> string.
Variable py_int : string -> option Z.
Variable py_random : nat -> nat.

(** ** [human_move] *)

Lemma human_move_round (board : Board) (hp : mark) (s : string)
    (lines : list string) (out : list event) :
  wf_board board ->
  let prompt := Asked ("Your move (" +:+ mark_str hp +:+ "). Enter 1-9: ") in
  (exists pos, accepted py_strip py_int board s pos /\
     human_move py_strip py_int board hp (s :: lines) out
     = Done pos lines (prompt :: out)) \/
  ((forall pos, ~ accepted py_strip py_int board s pos) /\
   human_move py_strip py_int board hp (s :: lines) out
   = human_move py_strip py_int board hp lines
       (Printed (refusal py_strip py_int s) :: prompt :: out)).
Proof.
  intros Hwf prompt. unfold accepted, refusal. cbn [human_move].
  destruct (py_int (py_strip s)) as [n|] eqn:Hn.
  2:{ right. split; [by intros pos [? _] | done]. }
  destruct (Z.ltb_spec (n - 1) 0) as [Hlo|Hlo]; simpl.
  { right. split; [intros pos ([= ->] & _); lia|].
    destruct (Z.ltb_spec n 1); [done|lia]. }
  destruct (Z.ltb_spec 8 (n - 1)) as [Hhi|Hhi]; simpl.
  { right. split; [intros pos ([= ->] & ? & _); lia|].
    destruct (Z.ltb_spec n 1); [lia|].
    destruct (Z.ltb_spec 9 n); [done|lia]. }
  destruct (Z.ltb_spec n 1); [lia|]. destruct (Z.ltb_spec 9 n); [lia|]. simpl.
  assert (Hpos : Z.to_nat (n - 1) < length board)
    by (unfold wf_board in Hwf; lia).
  destruct (getitem_lookup board _ Hpos) as (v & Hv & ->).
  destruct v as [m|].
  - right. split; [|done].
    intros pos ([= ->] & _ & Hfree).
    replace (Z.to_nat (Z.of_nat pos + 1 - 1)) with pos in Hv by lia.
    congruence.
  - left. exists (Z.to_nat (n - 1)). split; [|done].
    split; [f_equal; lia|]. split; [unfold wf_board in Hwf; lia | done].
Qed.

(** X6: on a board of nine cells, [human_move] reads lines until one reads
    as the number (1 to 9) of an empty cell and returns that cell's index; it
    returns nothing else.  Every line before it was refused, each with the
    prompt and one message: not a number, out of range, or cell taken.  If no
    line is acceptable, the end of input ([EOFError]) is the only way out. *)
Theorem human_move_returns_first_free_cell (board : Board) (hp : mark)
    (lines : list string) (out : list event) :
  wf_board board ->
  let prompt := Asked ("Your move (" +:+ mark_str hp +:+ "). Enter 1-9: ") in
  match human_move py_strip py_int board hp lines out with
  | Done pos rest out' =>
      exists refused s,
        lines = refused ++ s :: rest /\
        accepted py_strip py_int board s pos /\
        (forall r p, r ∈ refused -> ~ accepted py_strip py_int board r p) /\
        out' = prompt :: rev (refusals py_strip py_int hp refused) ++ out
  | Failed f rest out' =>
      f = EOFError /\ rest = [] /\
      (forall r p, r ∈ lines -> ~ accepted py_strip py_int board r p) /\
      out' = prompt :: rev (refusals py_strip py_int hp lines) ++ out
  end.
Proof.
  intros Hwf prompt. revert out.
  induction lines as [|s lines IH]; intros out.
  - simpl. split; [done|]. split; [done|]. split; [|done].
    intros r p Hr. by apply elem_of_nil in Hr.
  - destruct (human_move_round board hp s lines out Hwf)
      as [(pos & Hacc & ->)|[Hno ->]].
    + exists [], s. split; [done|]. split; [done|]. split; [|done].
      intros r p Hr. by apply elem_of_nil in Hr.
    + specialize (IH (Printed (refusal py_strip py_int s) :: prompt :: out)).
      destruct (human_move py_strip py_int board hp lines _)
        as [pos rest out'|f rest out'].
      * destruct IH as (refused & s' & -> & Hacc & Href & ->).
        exists (s :: refused), s'. split; [done|]. split; [done|]. split.
        -- intros r p [->|Hr]%elem_of_cons; [apply Hno | by apply Href].
        -- unfold refusals. simpl. rewrite <- !app_assoc. done.
      * destruct IH as (-> & -> & Href & ->).
        split; [done|]. split; [done|]. split.
        -- intros r p [->|Hr]%elem_of_cons; [apply Hno | by apply Href].
        -- unfold refusals. simpl. rewrite <- !app_assoc. done.
Qed.
End ConsoleFacts.

Lemma human_move_returns_first_free_cell_witness :
  exists refused s,
    ["x"; "12"; "1"; "3"; "5"] = refused ++ s :: ["5"] /\
    accepted id digit_int win_now_board s 2 /\
    (forall r p, r ∈ refused -> ~ accepted id digit_int win_now_board r p) /\
    [Asked "Your move (O). Enter 1-9: ";
     Printed "That spot is already taken. Choose another.";
     Asked "Your move (O). Enter 1-9: ";
     Printed "Please enter a valid number (1-9).";
     Asked "Your move (O). Enter 1-9: ";
     Printed "Please enter a valid number (1-9).";
     Asked "Your move (O). Enter 1-9: "]
    = Asked ("Your move (" +:+ mark_str O +:+ "). Enter 1-9: ")
      :: rev (refusals id digit_int O refused) ++ [].
Proof.
  apply (human_move_returns_first_free_cell id digit_int win_now_board O
           ["x"; "12"; "1"; "3"; "5"] []).
  reflexivity.
Defined.

(** ** The game loop *)

Lemma pretty_board_total (board : Board) :
  wf_board board -> exists text, pretty_board board = Ok text.
Proof.
  intros Hb. unfold wf_board in Hb.
  do 9 (destruct board as [|? board]; [done|]). destruct board; [|done].
  destruct (pretty_board_cells o o0 o1 o2 o3 o4 o5 o6 o7) as (text & Ht & _).
  by exists text.
Qed.

Lemma best_move_for_depth (depth rnd : nat) (p : mark) (board : Board) :
  wf_board board -> 9 <= depth ->
  best_move_for depth rnd p board = best_move_for 9 rnd p board.
Proof.
  intros Hwf Hd.
  assert (Hn : empties board <= 9)
    by (rewrite <- Hwf; apply empties_le_length).
  unfold best_move_for, bind, call. destruct (all_none board); [done|].
  destruct p; rewrite (minimax_fuel depth 9) by lia; done.
Qed.

Lemma engine_never_loses (e : mark) (final : Board) :
  plays (only e) new_board X final ->
  check_winner final <> Ok (Some (opponent e)).
Proof.
  intros Hplay.
  destruct (plays_value _ _ _ _ Hplay eq_refl) as (_ & _ & z & Ht & HX & HO).
  rewrite new_board_value in HX, HO.
  destruct (terminal_score_winner final z Ht)
    as [(-> & ->)|[(-> & ->)|(-> & -> & _)]]; destruct e; simpl; try done.
  - specialize (HO eq_refl). lia.
  - specialize (HX eq_refl). lia.
Qed.

Lemma mark_cell_free (board : Board) (pos : nat) (p : mark)
    (lines : list string) (out : list event) :
  board !! pos = Some None ->
  mark_cell board pos p lines out = Done (place board pos p) lines out.
Proof.
  intros Hfree. unfold mark_cell, setitem.
  by rewrite decide_True by (by eapply lookup_lt_Some).
Qed.

Section GameFacts.
Variable py_strip : string -> string.
Variable py_int : string -> option Z.
Variable py_random : nat -> nat.

Lemma human_move_result (board : Board) (hp : mark) (lines : list string)
    (out : list event) :
  wf_board board ->
  match human_move py_strip py_int board hp lines out with
  | Done pos _ _ => board !! pos = Some None
  | Failed f _ _ => f = EOFError
  end.
Proof.
  intros Hwf. revert out. induction lines as [|s lines IH]; intros out; [done|].
  destruct (human_move_round py_strip py_int board hp s lines out Hwf)
    as [(pos & (_ & _ & Hfree) & ->)|[_ ->]]; [done | apply IH].
Qed.

Lemma human_turn_step_result (board : Board) (hp : mark) (lines : list string)
    (out : list event) :
  wf_board board ->
  match human_turn_step py_strip py_int board hp lines out with
  | Done board' _ _ =>
      exists pos, pos ∈ available_moves board /\ board' = place board pos hp
  | Failed f _ _ => f = EOFError
  end.
Proof.
  intros Hwf. unfold human_turn_step, rbind.
  pose proof (human_move_result board hp lines out Hwf) as Hm.
  destruct (human_move py_strip py_int board hp lines out)
    as [pos rest out'|f rest out']; [|done].
  rewrite (mark_cell_free _ _ _ _ _ Hm).
  exists pos. split; [by apply available_moves_spec | done].
Qed.

Lemma ai_turn_step_result (depth : nat) (board : Board) (ai : mark) (k : nat)
    (lines : list string) (out : list event) :
  wf_board board -> game_over board = Ok false -> 9 <= depth ->
  exists pos k' out',
    best_move_for 9 (py_random k) ai board = (board, Ok (Some pos)) /\
    pos ∈ available_moves board /\
    ai_turn_step py_random depth board ai k lines out
    = Done (place board pos ai, k') lines out'.
Proof.
  intros Hwf Hopen Hd.
  destruct (best_move_for_available board ai 9 (py_random k) Hwf Hopen)
    as (pos & Hbest & Hpos).
  { rewrite <- Hwf. apply empties_le_length. }
  unfold ai_turn_step. rewrite (best_move_for_depth depth) by done.
  rewrite Hbest.
  rewrite mark_cell_free by (by apply available_moves_spec). simpl.
  eauto 10.
Qed.

(** The flag [human_turn] never decides who moves. *)
Lemma game_loop_flag (fuel depth : nat) (hp : mark) :
  forall board current ht ht' k lines out,
  game_loop py_strip py_int py_random fuel depth hp (opponent hp)
            board current ht k lines out
  = game_loop py_strip py_int py_random fuel depth hp (opponent hp)
              board current ht' k lines out.
Proof.
  induction fuel as [|fuel IH]; intros board current ht ht' k lines out;
    cbn [game_loop]; unfold rbind;
    destruct (print_board board lines _) as [[] l1 o1|f l1 o1]; try done;
    destruct (game_over board) as [[|]| |]; try done.
  assert (Hstep : forall a b,
            match human_turn_step py_strip py_int board hp l1 o1 with
            | Done board lines out =>
                game_loop py_strip py_int py_random fuel depth hp
                  (opponent hp) board (opponent current) a k lines out
            | Failed f lines out => Failed f lines out
            end
            = match human_turn_step py_strip py_int board hp l1 o1 with
              | Done board lines out =>
                  game_loop py_strip py_int py_random fuel depth hp
                    (opponent hp) board (opponent current) b k lines out
              | Failed f lines out => Failed f lines out
              end).
  { intros a b. destruct (human_turn_step _ _ _ _ _ _); [apply IH | done]. }
  assert (Hai : forall a b,
            match ai_turn_step py_random depth board (opponent hp) k l1 o1 with
            | Done bk lines out =>
                game_loop py_strip py_int py_random fuel depth hp
                  (opponent hp) bk.1 (opponent current) a bk.2 lines out
            | Failed f lines out => Failed f lines out
            end
            = match ai_turn_step py_random depth board (opponent hp) k l1 o1 with
              | Done bk lines out =>
                  game_loop py_strip py_int py_random fuel depth hp
                    (opponent hp) bk.1 (opponent current) b bk.2 lines out
              | Failed f lines out => Failed f lines out
              end).
  { intros a b. destruct (ai_turn_step _ _ _ _ _ _ _); [apply IH | done]. }
  destruct (decide (current = hp)) as [->|Hne].
  - rewrite !bool_decide_eq_true_2 by done.
    rewrite !bool_decide_eq_false_2 by (by destruct hp).
    rewrite !andb_true_r, !andb_false_r.
    destruct ht, ht'; simpl; apply Hstep.
  - assert (current = opponent hp) as -> by (by destruct current, hp).
    rewrite !bool_decide_eq_false_2 by (by destruct hp).
    rewrite !bool_decide_eq_true_2 by done.
    rewrite !andb_true_r, !andb_false_r.
    destruct ht, ht'; simpl; apply Hai.
Qed.
End GameFacts.

Section GameRuns.
Variable py_strip : string -> string.
Variable py_upper : string -> string.
Variable py_int : string -> option Z.
Variable py_random : nat -> nat.

(** One round of the loop, with the three-way branch on [human_turn] and
    [current] read as what it comes to: the human moves when [current] is the
    human's mark, the AI otherwise. *)
Lemma game_loop_round (fuel depth : nat) (hp : mark) (board : Board)
    (current : mark) (ht : bool) (k : nat) (lines : list string)
    (out : list event) :
  game_loop py_strip py_int py_random (S fuel) depth hp (opponent hp)
            board current ht k lines out
  = rbind (print_board board lines
             (Printed (newline +:+ "Current board:") :: out))
      (fun _ lines out =>
         match game_over board with
         | Ok true => Done board lines out
         | Ok false =>
             if bool_decide (current = hp) then
               rbind (human_turn_step py_strip py_int board hp lines out)
                 (fun board lines out =>
                    game_loop py_strip py_int py_random fuel depth hp
                      (opponent hp) board (opponent current) true k lines out)
             else
               rbind (ai_turn_step py_random depth board (opponent hp) k
                        lines out)
                 (fun bk lines out =>
                    game_loop py_strip py_int py_random fuel depth hp
                      (opponent hp) bk.1 (opponent current) true bk.2
                      lines out)
         | o => Failed (failure_of o) lines out
         end).
Proof.
  rewrite (game_loop_flag _ _ _ _ _ _ _ _ ht (bool_decide (current = hp))).
  cbn [game_loop]. unfold rbind.
  destruct (print_board board lines _) as [[] l1 o1|f l1 o1]; try done.
  destruct (game_over board) as [[|]| |]; try done.
  destruct (decide (current = hp)) as [->|Hne].
  - rewrite !bool_decide_eq_true_2 by done. simpl.
    destruct (human_turn_step _ _ _ _ _ _); [apply game_loop_flag | done].
  - assert (current = opponent hp) as -> by (by destruct current, hp).
    rewrite !bool_decide_eq_false_2 by (by destruct hp).
    rewrite !bool_decide_eq_true_2 by done. simpl.
    destruct (ai_turn_step _ _ _ _ _ _ _); [apply game_loop_flag | done].
Qed.

Lemma game_loop_result (fuel depth : nat) (hp : mark) :
  9 <= depth ->
  forall board current ht k lines out,
  wf_board board ->
  match game_loop py_strip py_int py_random fuel depth hp (opponent hp)
                  board current ht k lines out with
  | Done final _ _ =>
      plays (only (opponent hp)) board current final /\ wf_board final
  | Failed f _ _ => f = EOFError \/ (f = Depth /\ fuel < empties board)
  end.
Proof.
  intros Hd.
  induction fuel as [|fuel IH]; intros board current ht k lines out Hwf.
  - cbn [game_loop]. unfold rbind, print_board.
    destruct (pretty_board_total board Hwf) as [text ->].
    destruct (game_over_total board Hwf) as [[|] Hover]; rewrite Hover.
    + split; [by apply plays_over | done].
    + right. split; [done|].
      destruct (game_over_open board Hover) as (_ & _ & Hf).
      destruct (is_board_full_false board Hf) as [mv Hmv].
      unfold empties. destruct (available_moves board);
        [by apply elem_of_nil in Hmv | simpl; lia].
  - rewrite game_loop_round. unfold rbind at 1. unfold print_board.
    destruct (pretty_board_total board Hwf) as [text ->].
    destruct (game_over_total board Hwf) as [[|] Hover]; rewrite Hover.
    { split; [by apply plays_over | done]. }
    assert (Hnext : forall pos p k' l o,
              pos ∈ available_moves board ->
              match game_loop py_strip py_int py_random fuel depth hp
                      (opponent hp) (place board pos p) (opponent current)
                      true k' l o with
              | Done final _ _ =>
                  plays (only (opponent hp)) (place board pos p)
                        (opponent current) final /\ wf_board final
              | Failed f _ _ =>
                  f = EOFError \/ (f = Depth /\ S fuel < empties board)
              end).
    { intros pos p k' l o Hpos. apply available_moves_spec in Hpos.
      pose proof (empties_place board pos p Hpos) as He.
      specialize (IH (place board pos p) (opponent current) true k' l o
                     (wf_place _ _ _ Hwf)).
      destruct (game_loop _ _ _ _ _ _ _ _ _ _ _ _ _); [exact IH|].
      destruct IH as [->|[-> Hlt]]; [by left | right; split; [done|lia]]. }
    destruct (decide (current = hp)) as [->|Hne].
    + rewrite bool_decide_eq_true_2 by done.
      pose proof (human_turn_step_result py_strip py_int board hp lines
                    (Printed text :: Printed (newline +:+ "Current board:")
                     :: out) Hwf) as Hstep.
      destruct (human_turn_step _ _ _ _ _ _) as [board' l o|f l o]; simpl;
        [|by left].
      destruct Hstep as (pos & Hpos & ->).
      specialize (Hnext pos hp k l o Hpos).
      destruct (game_loop _ _ _ _ _ _ _ _ _ _ _ _ _) as [final ? ?|f ? ?];
        [|exact Hnext].
      destruct Hnext as [Hplay Hwf']. split; [|exact Hwf'].
      apply (plays_other _ _ _ pos); [done | | done | done].
      unfold only. apply bool_decide_eq_false_2. by destruct hp.
    + assert (current = opponent hp) as -> by (by destruct current, hp).
      rewrite bool_decide_eq_false_2 by (by destruct hp).
      destruct (ai_turn_step_result py_random depth board (opponent hp) k lines
                  (Printed text :: Printed (newline +:+ "Current board:")
                   :: out) Hwf Hover Hd)
        as (pos & k' & out' & Hbest & Hpos & ->). simpl.
      specialize (Hnext pos (opponent hp) k' lines out' Hpos).
      destruct (game_loop _ _ _ _ _ _ _ _ _ _ _ _ _) as [final ? ?|f ? ?];
        [|exact Hnext].
      destruct Hnext as [Hplay Hwf']. split; [|exact Hwf'].
      apply (plays_engine _ _ _ (py_random k) pos); [done | | done | done].
      unfold only. by apply bool_decide_eq_true_2.
Qed.

(** X7: the answer to "Who moves first?" changes nothing.  After the two
    questions [play_game] runs the same way, event for event, whatever the
    accepted answer was: in every round the flag [human_turn] leaves the
    choice to [current], which starts at X.  So the human moves first exactly
    when the human chose X. *)
Theorem first_mover_answer_is_ignored (fuel depth : nat) (hp : mark)
    (first first' : string) (lines : list string) (out : list event) :
  run_game py_strip py_int py_random fuel depth hp first lines out
  = run_game py_strip py_int py_random fuel depth hp first' lines out.
Proof.
  unfold run_game.
  by rewrite (game_loop_flag _ _ _ _ _ _ _ _
                (negb (String.eqb first "A")) (negb (String.eqb first' "A"))).
Qed.

(** X8: a run of the game loop of [play_game] on a board of nine cells is a
    game: when the loop ends, the board it leaves is finished and was reached
    from the board it started on by alternating moves, the AI's mark placed
    where [best_move_for] said and the human's on a cell that was empty.  The
    loop stops early only when standard input ends; a budget of rounds that
    covers the empty cells is never used up, so at most nine rounds place a
    mark. *)
Theorem game_loop_plays_a_game (fuel depth : nat) (hp : mark) (board : Board)
    (current : mark) (ht : bool) (k : nat) (lines : list string)
    (out : list event) :
  wf_board board -> 9 <= depth ->
  match game_loop py_strip py_int py_random fuel depth hp (opponent hp)
                  board current ht k lines out with
  | Done final _ _ =>
      plays (only (opponent hp)) board current final /\
      wf_board final /\ game_over final = Ok true
  | Failed f _ _ => f = EOFError \/ (f = Depth /\ fuel < empties board)
  end.
Proof.
  intros Hwf Hd.
  pose proof (game_loop_result fuel depth hp Hd board current ht k lines out
                Hwf) as H.
  destruct (game_loop _ _ _ _ _ _ _ _ _ _ _ _ _) as [final ? ?|f ? ?];
    [|exact H].
  destruct H as [Hplay Hwf']. split; [exact Hplay|]. split; [exact Hwf'|].
  by destruct (plays_value _ _ _ _ Hplay Hwf) as (_ & Hover & _).
Qed.

Lemma ask_mark_result (lines : list string) (out : list event) :
  match ask_mark py_strip py_upper lines out with
  | Done _ _ _ => True
  | Failed f _ _ => f = EOFError
  end.
Proof.
  revert out. induction lines as [|s lines IH]; intros out; [done|].
  cbn [ask_mark].
  destruct (String.eqb _ "X"); [done|]. destruct (String.eqb _ "O"); [done|].
  apply IH.
Qed.

Lemma ask_first_result (lines : list string) (out : list event) :
  match ask_first py_strip py_upper lines out with
  | Done _ _ _ => True
  | Failed f _ _ => f = EOFError
  end.
Proof.
  revert out. induction lines as [|s lines IH]; intros out; [done|].
  cbn [ask_first]. destruct (_ || _ || _); [done | apply IH].
Qed.

Lemma run_game_result (fuel depth : nat) (hp : mark) (first : string)
    (lines : list string) (out : list event) :
  9 <= fuel -> 9 <= depth ->
  match run_game py_strip py_int py_random fuel depth hp first lines out with
  | Done _ _ out' =>
      exists rest,
        out' = Printed ai_wins_text :: rest \/ out' = Printed draw_text :: rest
  | Failed f _ _ => f = EOFError
  end.
Proof.
  intros Hf Hd. unfold run_game, rbind.
  pose proof (game_loop_result fuel depth hp Hd new_board X
                (negb (String.eqb first "A")) 0 lines out eq_refl) as H.
  destruct (game_loop _ _ _ _ _ _ _ _ _ _ _ _ _) as [final l o|f l o].
  2:{ destruct H as [->|[_ Hlt]]; [done|].
      change (empties new_board) with 9 in Hlt. lia. }
  destruct H as [Hplay Hwf].
  unfold announce, rbind, print_board.
  destruct (pretty_board_total final Hwf) as [text ->].
  destruct (check_winner_total final Hwf) as [[w|] Hw]; rewrite Hw.
  - rewrite bool_decide_eq_false_2; [eauto|].
    intros ->. apply (engine_never_loses _ _ Hplay).
    rewrite Hw. by destruct hp.
  - eauto.
Qed.

(** X9: [play_game] never announces that the human has won.  Whatever is
    typed, a run that comes to its end ends on the verdict "AI wins" or "It's
    a draw"; and the only way for a run not to come to its end is the end of
    standard input: no exception of the board code, no [None] move, and no
    more than nine rounds of moves. *)
Theorem play_game_never_announces_a_human_win (fuel depth : nat)
    (lines : list string) :
  9 <= fuel -> 9 <= depth ->
  match play_game py_strip py_upper py_int py_random fuel depth lines with
  | Done _ _ out =>
      exists rest,
        out = Printed ai_wins_text :: rest \/ out = Printed draw_text :: rest
  | Failed f _ _ => f = EOFError
  end.
Proof.
  intros Hf Hd. unfold play_game, rbind.
  pose proof (ask_mark_result lines
    [Printed ("Welcome to Tic-Tac-Toe with an unbeatable AI!" +:+ newline)])
    as Hm.
  destruct (ask_mark _ _ _ _) as [hp l1 o1|f l1 o1]; [|exact Hm].
  pose proof (ask_first_result l1 o1) as Hq.
  destruct (ask_first _ _ _ _) as [first l2 o2|f l2 o2]; [|exact Hq].
  by apply run_game_result.
Qed.
End GameRuns.

Lemma game_loop_plays_a_game_witness :
  plays (only X) win_now_board X (place win_now_board 2 X) /\
  wf_board (place win_now_board 2 X) /\
  game_over (place win_now_board 2 X) = Ok true.
Proof.
  apply (game_loop_plays_a_game id digit_int (fun _ => 0) 1 9 O win_now_board
           X true 0 [] []); [reflexivity | lia].
Defined.

(** A run for the examples: the human takes X and types 1 to 9 over and
    over. *)
Lemma play_game_never_announces_a_human_win_witness :
  match play_game id id digit_int (fun _ => 0) 9 9
          (["x"; "X"; "?"; "";
            "1"; "2"; "3"; "4"; "5"; "6"; "7"; "8"; "9";
            "1"; "2"; "3"; "4"; "5"; "6"; "7"; "8"; "9";
            "1"; "2"; "3"; "4"; "5"; "6"; "7"; "8"; "9"]) with
  | Done _ _ out =>
      exists rest,
        out = Printed ai_wins_text :: rest \/ out = Printed draw_text :: rest
  | Failed f _ _ => f = EOFError
  end.
Proof.
  apply (play_game_never_announces_a_human_win id id digit_int (fun _ => 0)
           9 9); lia.
Defined.

(** ** The chat program *)

Lemma prefix_spec (n h : string) :
  String.prefix n h = true <-> exists b, h = n +:+ b.
Proof.
  revert h. induction n as [|a n IH]; intros h.
  - split; [intros _; by exists h | by destruct h].
  - destruct h as [|b h]; [split; [done | by intros [? [=]]]|].
    cbn [String.prefix].
    destruct (ascii_dec a b) as [->|Hne].
    + rewrite IH. split; intros [t Ht]; exists t;
        [by rewrite Ht | by injection Ht].
    + split; [done | intros [t [= ? _]]; congruence].
Qed.

Lemma contains_spec (n h : string) :
  contains n h = true <-> exists a b, h = a +:+ n +:+ b.
Proof.
  induction h as [|c h IH]; cbn [contains].
  - rewrite orb_false_r, prefix_spec. split.
    + intros [b Hb]. by exists "", b.
    + intros (a & b & E). destruct a; [by exists b | done].
  - rewrite orb_true_iff, prefix_spec, IH. split.
    + intros [[b Hb]|(a & b & ->)]; [by exists "", b|].
      by exists (String c a), b.
    + intros (a & b & E). destruct a as [|c' a]; [left; by exists b|].
      right. injection E as -> ->. by exists a, b.
Qed.

Lemma string_app_assoc (a b c : string) : (a +:+ b) +:+ c = a +:+ (b +:+ c).
Proof.
  induction a as [|x a IH]; [done|].
  change (String x ((a +:+ b) +:+ c) = String x (a +:+ b +:+ c)).
  by rewrite IH.
Qed.

Lemma contains_goodbye (u : string) :
  contains "bye" u || contains "goodbye" u = contains "bye" u.
Proof.
  destruct (contains "bye" u) eqn:Hb; [done|]. simpl.
  destruct (contains "goodbye" u) eqn:Hg; [|done].
  apply contains_spec in Hg as (a & b & ->).
  assert (contains "bye" (a +:+ "goodbye" +:+ b) = true); [|congruence].
  apply contains_spec. exists (a +:+ "good"), b.
  by rewrite string_app_assoc.
Qed.

Section ChatFacts.
Variable py_lower : string -> string.

Lemma chat_loop_run (lines : list string) (out : list event) :
  match chat_loop py_lower lines out with
  | Done _ rest out' =>
      exists before last,
        lines = before ++ last :: rest /\
        says_bye py_lower last = true /\
        (forall l, l ∈ before -> says_bye py_lower l = false) /\
        out' = rev (flat_map (exchange py_lower) (before ++ [last])) ++ out
  | Failed f rest out' =>
      f = EOFError /\ rest = [] /\
      (forall l, l ∈ lines -> says_bye py_lower l = false) /\
      out' = Asked "You: " :: rev (flat_map (exchange py_lower) lines) ++ out
  end.
Proof.
  revert out. induction lines as [|l lines IH]; intros out.
  - simpl. repeat split. intros l Hl. by apply elem_of_nil in Hl.
  - cbn [chat_loop]. rewrite contains_goodbye.
    fold (says_bye py_lower l).
    destruct (says_bye py_lower l) eqn:Hbye.
    + exists [], l. split; [done|]. split; [done|]. split; [|done].
      intros x Hx. by apply elem_of_nil in Hx.
    + specialize (IH (Printed ("Chatbot: " +:+ chatbot_response py_lower l)
                      :: Asked "You: " :: out)).
      destruct (chat_loop py_lower lines _) as [[] rest out'|f rest out'].
      * destruct IH as (before & last & -> & Hlast & Hbefore & ->).
        exists (l :: before), last. split; [done|]. split; [done|]. split.
        -- intros x [->|Hx]%elem_of_cons; [done | by apply Hbefore].
        -- simpl. rewrite <- !app_assoc. done.
      * destruct IH as (-> & -> & Hall & ->).
        split; [done|]. split; [done|]. split.
        -- intros x [->|Hx]%elem_of_cons; [done | by apply Hall].
        -- simpl. rewrite <- !app_assoc. done.
Qed.

(** X10: the chat program answers the lines it reads one by one, each with
    the prompt and the reply of [chatbot_response], and stops after the first
    line whose lower-case form contains "bye", leaving the lines after it
    unread.  If no line does, it goes on to the end of input and stops there
    with [EOFError], having asked once more. *)
Theorem chat_stops_at_the_first_bye (lines : list string) :
  match chat_main py_lower lines with
  | Done _ rest out =>
      exists before last,
        lines = before ++ last :: rest /\
        says_bye py_lower last = true /\
        (forall l, l ∈ before -> says_bye py_lower l = false) /\
        out = rev (chat_banner
                   :: flat_map (exchange py_lower) (before ++ [last]))
  | Failed f rest out =>
      f = EOFError /\ rest = [] /\
      (forall l, l ∈ lines -> says_bye py_lower l = false) /\
      out = Asked "You: "
            :: rev (chat_banner :: flat_map (exchange py_lower) lines)
  end.
Proof.
  unfold chat_main. fold chat_banner.
  pose proof (chat_loop_run lines [chat_banner]) as H.
  destruct (chat_loop py_lower lines [chat_banner]) as [[] rest out|f rest out].
  - destruct H as (before & last & -> & Hlast & Hbefore & ->).
    exists before, last. repeat split; try done.
  - destruct H as (-> & -> & Hall & ->). repeat split; try done.
Qed.

(** X11: the reply and the exit agree on farewells: whenever
    [chatbot_response] answers a line with the goodbye message, the chat loop
    ends on that line, with that reply as its last word. *)
Theorem goodbye_reply_ends_the_chat (l : string) (rest : list string)
    (out : list event) :
  chatbot_response py_lower l = farewell_text ->
  chat_loop py_lower (l :: rest) out
  = Done tt rest (Printed ("Chatbot: " +:+ farewell_text)
                  :: Asked "You: " :: out).
Proof.
  intros Hreply. cbn [chat_loop]. rewrite Hreply.
  unfold chatbot_response in Hreply. cbv zeta in Hreply.
  destruct (contains "hello" (py_lower l) || contains "hi" (py_lower l));
    [discriminate|].
  destruct (contains "how are you" (py_lower l)); [discriminate|].
  destruct (contains "your name" (py_lower l)); [discriminate|].
  destruct (contains "bye" (py_lower l) || contains "goodbye" (py_lower l));
    [done|].
  destruct (contains "weather" (py_lower l)); discriminate.
Qed.

(** X14: the converse fails, because the greeting rule comes first and the
    keywords are looked for anywhere in the line: a line whose lower-case
    form contains "hi" (inside "this" or "while", say) and "bye" ends the
    chat, and the last word of the chat is the greeting, not the goodbye
    message. *)
Theorem chat_can_end_on_a_greeting (l : string) (rest : list string)
    (out : list event) :
  contains "hi" (py_lower l) = true ->
  says_bye py_lower l = true ->
  chatbot_response py_lower l = greeting_text /\
  chat_loop py_lower (l :: rest) out
  = Done tt rest (Printed ("Chatbot: " +:+ greeting_text)
                  :: Asked "You: " :: out).
Proof.
  unfold says_bye. intros Hhi Hbye.
  assert (chatbot_response py_lower l = greeting_text) as Hreply.
  { unfold chatbot_response. cbv zeta. by rewrite Hhi, orb_true_r. }
  split; [exact Hreply|].
  cbn [chat_loop]. by rewrite Hreply, Hbye.
Qed.
End ChatFacts.

Lemma chat_stops_at_the_first_bye_witness :
  match chat_main id ["what is the weather"; "ok goodbye"; "hello"] with
  | Done _ rest out =>
      exists before last,
        ["what is the weather"; "ok goodbye"; "hello"]
        = before ++ last :: rest /\
        says_bye id last = true /\
        (forall l, l ∈ before -> says_bye id l = false) /\
        out = rev (chat_banner :: flat_map (exchange id) (before ++ [last]))
  | Failed f rest out =>
      f = EOFError /\ rest = [] /\
      (forall l, l ∈ ["what is the weather"; "ok goodbye"; "hello"] ->
                 says_bye id l = false) /\
      out = Asked "You: "
            :: rev (chat_banner
                    :: flat_map (exchange id)
                         ["what is the weather"; "ok goodbye"; "hello"])
  end.
Proof.
  apply (chat_stops_at_the_first_bye id).
Defined.

Lemma chat_can_end_on_a_greeting_witness :
  chatbot_response id "nothing more, bye" = greeting_text /\
  chat_loop id ["nothing more, bye"; "hello"] []
  = Done tt ["hello"]
      [Printed ("Chatbot: " +:+ greeting_text); Asked "You: "].
Proof.
  apply (chat_can_end_on_a_greeting id "nothing more, bye" ["hello"] []);
    reflexivity.
Defined.

Lemma goodbye_reply_ends_the_chat_witness :
  chat_loop id ["ok goodbye"; "hello"] []
  = Done tt ["hello"]
      [Printed ("Chatbot: " +:+ farewell_text); Asked "You: "].
Proof.
  apply (goodbye_reply_ends_the_chat id "ok goodbye" ["hello"] []).
  reflexivity.
Defined.

(** ** The printed board and the human's answer *)

(** X12: what the printed board shows for an empty cell is what the human
    types to take it.  Provided [int] reads back the numbers 1 to 9 as [str]
    writes them (after [strip]), the text [cell(i)] of an empty cell [i] of a
    board of nine cells is a line that [human_move] accepts at once, and the
    index it returns for it is [i]. *)
Theorem shown_number_selects_the_cell (py_strip : string -> string)
    (py_int : string -> option Z) (board : Board) (hp : mark) (i : nat)
    (lines : list string) (out : list event) :
  wf_board board -> board !! i = Some None ->
  (forall n, 1 <= n <= 9 ->
     py_int (py_strip (str_of_nat n)) = Some (Z.of_nat n)) ->
  exists shown,
    cell_text board i = Ok shown /\
    human_move py_strip py_int board hp (shown :: lines) out
    = Done i lines
        (Asked ("Your move (" +:+ mark_str hp +:+ "). Enter 1-9: ") :: out).
Proof.
  intros Hwf Hfree Hint.
  pose proof (lookup_lt_Some _ _ _ Hfree) as Hi. rewrite Hwf in Hi.
  exists (str_of_nat (i + 1)). split.
  { unfold cell_text, getitem. by rewrite Hfree. }
  cbn [human_move]. rewrite Hint by lia.
  replace (Z.of_nat (i + 1) - 1)%Z with (Z.of_nat i) by lia.
  destruct (Z.ltb_spec (Z.of_nat i) 0); [lia|].
  destruct (Z.ltb_spec 8 (Z.of_nat i)); [lia|]. simpl.
  rewrite Nat2Z.id. unfold getitem. by rewrite Hfree.
Qed.

Lemma shown_number_selects_the_cell_witness :
  exists shown,
    cell_text win_now_board 5 = Ok shown /\
    human_move id digit_int win_now_board O (shown :: ["7"]) []
    = Done 5 ["7"] [Asked ("Your move (" +:+ mark_str O +:+ "). Enter 1-9: ")].
Proof.
  apply (shown_number_selects_the_cell id digit_int win_now_board O 5 ["7"] []);
    [reflexivity | reflexivity |].
  intros n Hn.
  do 10 (destruct n as [|n]; [first [lia | reflexivity]|]). lia.
Defined.

(** * The two marks are treated alike *)

Lemma swap_marks_length (board : Board) :
  length (swap_marks board) = length board.
Proof. unfold swap_marks. by rewrite length_map. Qed.

Lemma swap_marks_lookup (board : Board) (i : nat) :
  swap_marks board !! i = (fun c : option mark => opponent <$> c) <$> board !! i.
Proof. unfold swap_marks. apply list_lookup_fmap. Qed.

Lemma swap_marks_insert (board : Board) (i : nat) (c : option mark) :
  swap_marks (<[i := c]> board) = <[i := opponent <$> c]> (swap_marks board).
Proof. unfold swap_marks. apply list_fmap_insert. Qed.

Lemma opponent_fmap_inj (c c' : option mark) :
  opponent <$> c = opponent <$> c' <-> c = c'.
Proof. destruct c as [[|]|], c' as [[|]|]; simpl; split; congruence. Qed.

Lemma check_lines_swap (lines : list (nat * nat * nat)) (board : Board) :
  check_lines lines (swap_marks board)
  = match check_lines lines board with
    | Ok w => Ok (opponent <$> w)
    | Raise e => Raise e
    | OutOfFuel => OutOfFuel
    end.
Proof.
  induction lines as [|[[a b] c] rest IH]; [done|].
  cbn [check_lines]. unfold getitem. rewrite !swap_marks_lookup.
  destruct (board !! a) as [[ma|]|]; simpl; [|exact IH|done].
  destruct (board !! b) as [vb|]; simpl; [|done].
  destruct (decide (Some ma = vb)) as [<-|Hne].
  - rewrite decide_True by done.
    destruct (board !! c) as [vc|]; simpl; [|done].
    destruct (decide (Some ma = vc)) as [<-|Hne].
    + by rewrite decide_True by done.
    + rewrite decide_False; [exact IH|].
      intros E. apply Hne. by apply (opponent_fmap_inj (Some ma) vc).
  - rewrite decide_False; [exact IH|].
    intros E. apply Hne. by apply (opponent_fmap_inj (Some ma) vb).
Qed.

Lemma is_board_full_swap (board : Board) :
  is_board_full (swap_marks board) = is_board_full board.
Proof.
  induction board as [|[m|] rest IH]; simpl; [done | exact IH | done].
Qed.

Lemma all_none_swap (board : Board) :
  all_none (swap_marks board) = all_none board.
Proof.
  induction board as [|[m|] rest IH]; simpl; [done | done | exact IH].
Qed.

Lemma available_moves_swap (board : Board) :
  available_moves (swap_marks board) = available_moves board.
Proof.
  unfold available_moves. generalize 0.
  induction board as [|[m|] rest IH]; intros i; simpl;
    [done | apply IH | by rewrite IH].
Qed.

Lemma setitem_swap (i : nat) (c : option mark) (board : Board) :
  setitem i (option_map opponent c) (swap_marks board)
  = mirror id (setitem i c board).
Proof.
  unfold setitem, mirror. rewrite swap_marks_length.
  destruct (decide (i < length board)); simpl; [|done].
  by rewrite swap_marks_insert.
Qed.

Lemma ext_ltb_neg (a b : ext) :
  ext_ltb (ext_neg b) (ext_neg a) = ext_ltb a b.
Proof.
  destruct a, b; simpl; try done.
  destruct (Z.ltb_spec (- z0) (- z)), (Z.ltb_spec z z0); [done|lia|lia|done].
Qed.

Lemma dltb_flip (d : dir) (a b : ext) :
  dltb (flip_dir d) (ext_neg a) (ext_neg b) = dltb d a b.
Proof. destruct d; simpl; apply ext_ltb_neg. Qed.

(** The loop in one direction on a board is the loop in the other
    direction on the board with the marks exchanged. *)
Lemma dir_loop_mirror (d : dir) (R R' : ext -> ext -> M (Z * option nat))
    (p : mark) (mvs : list nat) :
  (forall lo hi c,
     R' (ext_neg lo) (ext_neg hi) (swap_marks c) = mirror neg_score (R lo hi c)) ->
  forall lo hi ev best board,
  dir_loop (flip_dir d) R' (opponent p) mvs (ext_neg lo) (ext_neg hi)
           (ext_neg ev) best (swap_marks board)
  = mirror neg_eval (dir_loop d R p mvs lo hi ev best board).
Proof.
  intros HR.
  induction mvs as [|mv rest IH]; intros lo hi ev best board; [done|].
  cbn [dir_loop]. unfold bind.
  rewrite (setitem_swap mv (Some p)).
  destruct (setitem mv (Some p) board) as [b1 [[]| |]]; try done.
  cbn [mirror fst snd id]. rewrite HR.
  destruct (R lo hi b1) as [b2 [[s m]| |]]; try done.
  cbn [mirror fst snd neg_score].
  rewrite (setitem_swap mv None).
  destruct (setitem mv None b2) as [b3 [[]| |]]; try done.
  cbn [mirror fst snd id].
  change (Fin (- s)) with (ext_neg (Fin s)). rewrite !dltb_flip.
  replace (if dltb d lo (Fin s) then ext_neg (Fin s) else ext_neg lo)
    with (ext_neg (if dltb d lo (Fin s) then Fin s else lo))
    by (by destruct (dltb d lo (Fin s))).
  rewrite dltb_flip.
  destruct (dltb d ev (Fin s));
    (destruct (negb _); [done | apply IH]).
Qed.

Lemma minimax_body (n : nat) (player : mark) (maximizing : bool)
    (alpha beta : ext) (board : Board) :
  check_winner board = Ok None -> is_board_full board = false ->
  minimax n player maximizing alpha beta board
  = bind (if maximizing
          then dir_loop Up (recurse_at n (opponent player) false) player
                 (available_moves board) alpha beta NegInf None
          else dir_loop Down
                 (fun lo hi => recurse_at n (opponent player) true hi lo)
                 player (available_moves board) beta alpha PosInf None)
         (fun r => bind (call (fun _ => int_of r.1))
                        (fun score => ret (score, r.2))) board.
Proof.
  intros Hw Hf.
  destruct n; simpl; unfold bind at 1, call at 1; rewrite Hw;
    unfold bind at 1, call at 1; rewrite Hf;
    unfold bind at 1, call at 1;
    (destruct maximizing; unfold bind at 1 3;
     [rewrite max_loop_dir | rewrite min_loop_dir];
     by destruct (dir_loop _ _ _ _ _ _ _ _ _) as [? [[]| |]]).
Qed.

Lemma check_winner_swap (board : Board) :
  check_winner (swap_marks board)
  = match check_winner board with
    | Ok w => Ok (opponent <$> w)
    | Raise e => Raise e
    | OutOfFuel => OutOfFuel
    end.
Proof. apply check_lines_swap. Qed.

Lemma minimax_mirror (n : nat) :
  forall player maximizing alpha beta board,
  minimax n (opponent player) (negb maximizing) (ext_neg beta) (ext_neg alpha)
          (swap_marks board)
  = mirror neg_score (minimax n player maximizing alpha beta board).
Proof.
  induction n as [n IH] using lt_wf_ind.
  assert (Hrec : forall p mx lo hi c,
            recurse_at n (opponent p) (negb mx) (ext_neg hi) (ext_neg lo)
                       (swap_marks c)
            = mirror neg_score (recurse_at n p mx lo hi c)).
  { destruct n as [|n]; [done|]. intros p mx lo hi c. apply IH. lia. }
  clear IH. intros player maximizing alpha beta board.
  pose proof (check_winner_swap board) as Hsw.
  destruct (check_winner board) as [[m|]|e|] eqn:Hw.
  - rewrite (minimax_terminal _ _ _ _ _ board (win_score m))
      by (unfold terminal_score; rewrite Hw; by destruct m).
    rewrite (minimax_terminal _ _ _ _ _ _ (- win_score m)%Z); [done|].
    unfold terminal_score. rewrite Hsw. by destruct m.
  - destruct (is_board_full board) eqn:Hf.
    { rewrite (minimax_terminal _ _ _ _ _ board 0%Z)
        by (unfold terminal_score; by rewrite Hw, Hf).
      rewrite (minimax_terminal _ _ _ _ _ _ 0%Z); [done|].
      unfold terminal_score. by rewrite Hsw, is_board_full_swap, Hf. }
    rewrite (minimax_body _ _ _ _ _ board Hw Hf).
    rewrite minimax_body by (by rewrite ?is_board_full_swap).
    rewrite available_moves_swap. unfold bind, call, ret.
    destruct maximizing; cbn [negb].
    + rewrite (dir_loop_mirror Up (recurse_at n (opponent player) false)
                 (fun lo hi =>
                    recurse_at n (opponent (opponent player)) true hi lo)
                 player _ (fun lo hi c => Hrec (opponent player) false lo hi c)
                 alpha beta NegInf None board).
      destruct (dir_loop Up _ _ _ _ _ _ _ _) as [b' [[ev bm]| |]]; try done.
      by destruct ev.
    + rewrite (dir_loop_mirror Down
                 (fun lo hi => recurse_at n (opponent player) true hi lo)
                 (recurse_at n (opponent (opponent player)) false)
                 player _ (fun lo hi c => Hrec (opponent player) true hi lo c)
                 beta alpha PosInf None board).
      destruct (dir_loop Down _ _ _ _ _ _ _ _) as [b' [[ev bm]| |]]; try done.
      by destruct ev.
  - rewrite (minimax_raise _ _ _ _ _ board e Hw).
    by rewrite (minimax_raise _ _ _ _ _ _ e).
  - by destruct (check_lines_fuel WIN_LINES board).
Qed.

(** X13: the search treats the two marks alike.  On any list of cells, for
    any window and depth budget, searching for the other mark in the other
    mode on the board with the marks exchanged (and the window negated)
    gives the same move and the negated score; so [best_move_for] chooses
    for O on the exchanged board the very move it chooses for X on the
    board, and the other way round. *)
Theorem marks_are_treated_alike (n rnd : nat) (player : mark) (board : Board) :
  (forall maximizing alpha beta,
     minimax n (opponent player) (negb maximizing)
             (ext_neg beta) (ext_neg alpha) (swap_marks board)
     = mirror neg_score (minimax n player maximizing alpha beta board)) /\
  best_move_for n rnd (opponent player) (swap_marks board)
  = mirror id (best_move_for n rnd player board).
Proof.
  split; [intros; apply minimax_mirror|].
  unfold best_move_for, bind, call, ret.
  rewrite all_none_swap. destruct (all_none board).
  { by destruct (random_choice rnd [0; 2; 4; 6; 8]). }
  destruct player; cbn [opponent].
  - pose proof (minimax_mirror n X true NegInf PosInf board) as H.
    cbn [opponent negb ext_neg] in H. rewrite H.
    by destruct (minimax n X true NegInf PosInf board) as [b' [[sc mv]| |]].
  - pose proof (minimax_mirror n O false NegInf PosInf board) as H.
    cbn [opponent negb ext_neg] in H. rewrite H.
    by destruct (minimax n O false NegInf PosInf board) as [b' [[sc mv]| |]].
Qed.
